(** * statemachine.py: the finite state machine engine

    A shallow embedding of [State], [Response] and [StateMachine] of
    [statemachine.py], and the properties of the construction operations
    and of the [run] loop.

    Modelling conventions.
    - A Python callable is a transformer of an abstract [World]: everything
      a callback can read or write ([_machine_data] included).  A slot that
      may hold [None] is an [option]; a function object is always truthy,
      so [if self._entry_action:] is a test for [Some].  Callbacks are
      taken to return normally and to leave the machine's own attributes
      alone.
    - Every invocation of a callback is recorded, in order, in a list of
      [Call] labels naming the slot that was invoked.
    - [State.__eq__] compares names only, and the hash of a state is taken
      to agree with it (hash of the name), as a dictionary key requires.
      The class body itself declares no [__hash__]; the states handed to a
      machine are instances that provide one.  A set of states or a
      dictionary keyed by states is therefore a finite map indexed by the
      name which also stores the key object, since Python keeps the first
      key object when an equal key is inserted again.
    - The event source is the finite sequence of [(event, parameters)]
      items it yields. *)

From stdpp Require Import gmap strings list fin_maps.

Section Engine.

Context {World Params : Type}.

(** ** State *)

Definition Callable : Type := World → World.

Record State : Type := mkState {
  name : string;
  _entry_action : option Callable;
  _exit_action : option Callable;
  is_end_state : bool
}.

(** [Event = str] *)
Definition Event : Type := string.

(** [Response = NamedTuple('Response', [next_state, action, guard_condition])].
    The guard returns its verdict together with the world it leaves. *)
Record Response : Type := mkResponse {
  next_state : State;
  action : option (Params → World → World);
  guard_condition : option (World → bool * World)
}.

(** The callback invocations an observer sees.  [Action] also records the
    name of [_current_state] at the moment the action is called. *)
Inductive Call : Type :=
  | InitialAction
  | GuardCondition (event : Event)
  | ExitAction (state : string)
  | Action (current : string) (parameters : Params)
  | EntryAction (state : string)
  | EndAction.

(** The part of the program state outside the machine object. *)
Record Env : Type := mkEnv {
  world : World;
  calls : list Call
}.

Definition invoke (f : World → World) (c : Call) (e : Env) : Env :=
  {| world := f (world e); calls := calls e ++ [c] |}.

(** [State.do_entry] *)
Definition do_entry (self : State) (e : Env) : Env :=
  match _entry_action self with
  | Some f => invoke f (EntryAction (name self)) e
  | None => e
  end.

(** [State.do_exit] *)
Definition do_exit (self : State) (e : Env) : Env :=
  match _exit_action self with
  | Some f => invoke f (ExitAction (name self)) e
  | None => e
  end.

(** [State.__eq__] *)
Definition State_eq (self other : State) : bool :=
  bool_decide (name self = name other).

(** [State.__repr__], for a name that is a [str]. *)
Definition State_repr (self : State) : string :=
  "State object named " +:+ name self +:+ ".".

(** ** StateMachine *)

Record StateMachine : Type := mkStateMachine {
  machine_name : string;
  _event_source : list (Event * Params);
  _current_state : State;
  _initial_action : option Callable;
  _end_action : option Callable;
  _states : gmap string State;
  _state_table : gmap Event (gmap string (State * Response))
}.

(** [StateMachine.__init__] *)
Definition StateMachine_init (name0 : string)
    (event_source : list (Event * Params)) (initial_state : State)
    (initial_action end_action : option Callable) : StateMachine :=
  {| machine_name := name0;
     _event_source := event_source;
     _current_state := initial_state;
     _initial_action := initial_action;
     _end_action := end_action;
     _states := {[ name initial_state := initial_state ]};
     _state_table := ∅ |}.

(** The attributes that a machine inherits from [State]:
    [super().__init__(name)] gives it the name and leaves the entry action,
    the exit action and the end flag at their defaults.  This is the view
    that the inherited [__eq__] compares.  A machine of the class as
    written cannot be hashed, so it is no key of a table and no current
    state of another machine; the view is used for comparison only. *)
Definition StateMachine_as_State (self : StateMachine) : State :=
  {| name := machine_name self;
     _entry_action := None;
     _exit_action := None;
     is_end_state := false |}.

(** [StateMachine.__repr__], for a name that is a [str]. *)
Definition StateMachine_repr (self : StateMachine) : string :=
  "Finite State Machine object named " +:+ machine_name self +:+ ".".

(** [state in self._states] *)
Definition state_in (state : State) (states : gmap string State) : Prop :=
  is_Some (states !! name state).

(** [set.add]: an element equal to one already present is not stored. *)
Definition set_add (state : State) (states : gmap string State)
    : gmap string State :=
  match states !! name state with
  | Some _ => states
  | None => <[name state := state]> states
  end.

(** [row[state] = response]: the value is replaced, an existing equal key
    object stays. *)
Definition row_set (state : State) (response : Response)
    (row : gmap string (State * Response)) : gmap string (State * Response) :=
  match row !! name state with
  | Some (key, _) => <[name state := (key, response)]> row
  | None => <[name state := (state, response)]> row
  end.

(** [row.get(state)] *)
Definition row_get (row : gmap string (State * Response)) (state : State)
    : option Response :=
  snd <$> row !! name state.

Definition with_states (self : StateMachine) (states : gmap string State)
    : StateMachine :=
  {| machine_name := machine_name self;
     _event_source := _event_source self;
     _current_state := _current_state self;
     _initial_action := _initial_action self;
     _end_action := _end_action self;
     _states := states;
     _state_table := _state_table self |}.

Definition with_state_table (self : StateMachine)
    (table : gmap Event (gmap string (State * Response))) : StateMachine :=
  {| machine_name := machine_name self;
     _event_source := _event_source self;
     _current_state := _current_state self;
     _initial_action := _initial_action self;
     _end_action := _end_action self;
     _states := _states self;
     _state_table := table |}.

Definition with_current_state (self : StateMachine) (state : State)
    : StateMachine :=
  {| machine_name := machine_name self;
     _event_source := _event_source self;
     _current_state := state;
     _initial_action := _initial_action self;
     _end_action := _end_action self;
     _states := _states self;
     _state_table := _state_table self |}.

(** [StateMachine.add_state] *)
Definition add_state (self : StateMachine) (state : State) : StateMachine :=
  with_states self (set_add state (_states self)).

(** [StateMachine.add_event] *)
Definition add_event (self : StateMachine) (event : Event) : StateMachine :=
  match _state_table self !! event with
  | Some _ => self
  | None => with_state_table self (<[event := ∅]> (_state_table self))
  end.

(** [StateMachine.add_table_entry].  After [add_event] the row of [event]
    exists; the [None] branch of the lookup is the [KeyError] that
    [self._state_table[event]] would raise and is never taken. *)
Definition add_table_entry (self : StateMachine) (event : Event)
    (state : State) (response : Response) : StateMachine :=
  let self1 := add_event self event in
  let self2 := add_state self1 state in
  match _state_table self2 !! event with
  | Some row =>
      with_state_table self2
        (<[event := row_set state response row]> (_state_table self2))
  | None => self2
  end.

(** ** The run loop *)

(** The exception that the engine itself raises on the inputs of this
    file (items that are pairs, states that can be hashed, callbacks that
    return): the [AttributeError] of line 93.  An item that is no pair
    ([ValueError], line 92) and a current state that cannot be hashed
    ([TypeError], line 93) are outside these inputs. *)
Inductive Exn : Type :=
  | AttributeError.

(** How one pass through the body of the [for] loop (lines 93-102) ends:
    by an exception, by the [continue] statement, or by reaching the test
    of [is_end_state] on line 103. *)
Inductive Flow : Type :=
  | Raise (x : Exn)
  | Continue (self : StateMachine) (e : Env)
  | Fall (self : StateMachine) (e : Env).

(** Lines 98-102: exit, state change, action, entry. *)
Definition perform (self : StateMachine) (e : Env) (next : State)
    (act : option (Params → World → World)) (parameters : Params)
    : StateMachine * Env :=
  let e1 := do_exit (_current_state self) e in
  let self1 := with_current_state self next in
  let e2 :=
    match act with
    | Some a => invoke (a parameters)
                  (Action (name (_current_state self1)) parameters) e1
    | None => e1
    end in
  let e3 := do_entry (_current_state self1) e2 in
  (self1, e3).

(** Lines 93-102.  [self._state_table.get(event)] is [None] for an event
    without a row, and [None.get] raises [AttributeError]. *)
Definition body (self : StateMachine) (e : Env) (item : Event * Params)
    : Flow :=
  let '(event, parameters) := item in
  match _state_table self !! event with
  | None => Raise AttributeError
  | Some row =>
      match row_get row (_current_state self) with
      | Some required_response =>
          match guard_condition required_response with
          | Some guard =>
              let '(verdict, w) := guard (world e) in
              let e1 := {| world := w;
                           calls := calls e ++ [GuardCondition event] |} in
              if verdict then
                let '(self1, e2) :=
                  perform self e1 (next_state required_response)
                    (action required_response) parameters in
                Fall self1 e2
              else Continue self e1
          | None =>
              let '(self1, e2) :=
                perform self e (next_state required_response)
                  (action required_response) parameters in
              Fall self1 e2
          end
      | None => Fall self e
      end
  end.

(** Why [run] stopped consuming events. *)
Inductive Stop : Type :=
  | Exhausted
  | Break
  | Raised (x : Exn).

Record Outcome : Type := mkOutcome {
  stop : Stop;
  machine : StateMachine;
  env : Env;
  unconsumed : list (Event * Params)
}.

(** The [for] loop of [run], lines 92-104. *)
Fixpoint loop (self : StateMachine) (e : Env)
    (source : list (Event * Params)) : Outcome :=
  match source with
  | [] => mkOutcome Exhausted self e []
  | item :: rest =>
      match body self e item with
      | Raise x => mkOutcome (Raised x) self e rest
      | Continue self1 e1 => loop self1 e1 rest
      | Fall self1 e1 =>
          if is_end_state (_current_state self1)
          then mkOutcome Break self1 e1 rest
          else loop self1 e1 rest
      end
  end.

(** Lines 90-91 of [run]: the initial action, in a world [w] where no
    call has been made yet. *)
Definition run_initial (self : StateMachine) (w : World) : Env :=
  match _initial_action self with
  | Some f => invoke f InitialAction {| world := w; calls := [] |}
  | None => {| world := w; calls := [] |}
  end.

(** Lines 105-106 of [run]: the end action. *)
Definition run_end (self : StateMachine) (e : Env) : Env :=
  match _end_action self with
  | Some f => invoke f EndAction e
  | None => e
  end.

(** [StateMachine.run], started in world [w].  An exception leaves the
    method from inside the loop, so the end action is not reached. *)
Definition run (self : StateMachine) (w : World) : Outcome :=
  let o := loop self (run_initial self w) (_event_source self) in
  match stop o with
  | Raised _ => o
  | _ => mkOutcome (stop o) (machine o) (run_end (machine o) (env o))
           (unconsumed o)
  end.

End Engine.

Arguments Callable : clear implicits.
Arguments State : clear implicits.
Arguments Response : clear implicits.
Arguments Call : clear implicits.
Arguments Env : clear implicits.
Arguments StateMachine : clear implicits.
Arguments Flow : clear implicits.
Arguments Outcome : clear implicits.

(** ** Notions used to state the properties *)

Section Notions.

Context {World Params : Type}.

Implicit Types (self : StateMachine World Params) (e : Env World Params).
Implicit Types (state next : State World) (response r : Response World Params).

(** The response registered for [(event, state)], if any. *)
Definition lookup_response self (event : Event) state
    : option (Response World Params) :=
  _state_table self !! event ≫= λ row, row_get row state.

(** The effect of an optional callback on the world, and the call it
    adds to the record. *)
Definition opt_apply (f : option (World → World)) (w : World) : World :=
  match f with
  | Some g => g w
  | None => w
  end.

Definition opt_call {A : Type} (f : option A) (c : Call Params)
    : list (Call Params) :=
  match f with
  | Some _ => [c]
  | None => []
  end.

(** The guard of [r] lets the transition through: there is none and the
    environment stays [e], or it is called, answers true and leaves [e1]. *)
Definition guard_passes r (event : Event) e (e1 : Env World Params) : Prop :=
  match guard_condition r with
  | None => e1 = e
  | Some guard =>
      (guard (world e)).1 = true ∧
      e1 = mkEnv (guard (world e)).2 (calls e ++ [GuardCondition event])
  end.

(** Every response stored in the table leads to a state of [_states]. *)
Definition targets_registered self : Prop :=
  map_Forall (λ _ (row : gmap string (State World * Response World Params)),
    map_Forall (λ _ (entry : State World * Response World Params),
      state_in (next_state entry.2) (_states self)) row)
    (_state_table self).

(** Number of invocations of the end action in a record of calls. *)
Fixpoint end_calls (l : list (Call Params)) : nat :=
  match l with
  | [] => 0
  | EndAction :: l' => S (end_calls l')
  | _ :: l' => end_calls l'
  end.

(** The response whose transition a pass performs (lines 98-102 are
    reached): the one found for the event and the current state, when its
    guard is absent or answers true. *)
Definition fired self (e : Env World Params) (item : Event * Params)
    : option (Response World Params) :=
  match _state_table self !! item.1 with
  | None => None
  | Some row =>
      match row_get row (_current_state self) with
      | None => None
      | Some r =>
          match guard_condition r with
          | None => Some r
          | Some guard => if (guard (world e)).1 then Some r else None
          end
      end
  end.

(** A performed transition: the item that triggered it, the state that was
    left, the environment before the pass and the response that was
    followed. *)
Record Transition : Type := mkTransition {
  t_item : Event * Params;
  t_source : State World;
  t_before : Env World Params;
  t_response : Response World Params
}.

(** The transitions that the loop performs on a source, in order. *)
Fixpoint performed self (e : Env World Params)
    (source : list (Event * Params)) : list Transition :=
  match source with
  | [] => []
  | item :: rest =>
      match body self e item with
      | Raise _ => []
      | Continue self1 e1 => performed self1 e1 rest
      | Fall self1 e1 =>
          match fired self e item with
          | Some r => [mkTransition item (_current_state self) e r]
          | None => []
          end
          ++ (if is_end_state (_current_state self1) then []
              else performed self1 e1 rest)
      end
  end.

(** The states whose entry action was invoked, in a record of calls. *)
Fixpoint entry_calls (l : list (Call Params)) : list string :=
  match l with
  | [] => []
  | EntryAction n :: l' => n :: entry_calls l'
  | _ :: l' => entry_calls l'
  end.

(** The target states of a list of transitions that have an entry
    action. *)
Definition entered (transitions : list Transition) : list string :=
  omap (λ t, match _entry_action (next_state (t_response t)) with
             | Some _ => Some (name (next_state (t_response t)))
             | None => None
             end) transitions.

(** The calls that the loop can make: every call but the one of the
    initial action and the one of the end action. *)
Definition transition_call (c : Call Params) : Prop :=
  match c with
  | InitialAction | EndAction => False
  | _ => True
  end.

(** The machines that the constructor and the three registration methods
    produce. *)
Inductive constructed : StateMachine World Params → Prop :=
  | constructed_init name0 source initial initial_action end_action :
      constructed
        (StateMachine_init name0 source initial initial_action end_action)
  | constructed_add_state self state :
      constructed self → constructed (add_state self state)
  | constructed_add_event self event :
      constructed self → constructed (add_event self event)
  | constructed_add_table_entry self event state response :
      constructed self →
      constructed (add_table_entry self event state response).

(** Two worlds related by [R] cannot be told apart by the callbacks of a
    machine: every action maps related worlds to related worlds, and every
    guard moreover gives the same verdict in both. *)
Definition callable_respects (R : World → World → Prop)
    (f : option (World → World)) : Prop :=
  ∀ g, f = Some g → ∀ w1 w2, R w1 w2 → R (g w1) (g w2).

Definition state_respects (R : World → World → Prop) state : Prop :=
  callable_respects R (_entry_action state)
  ∧ callable_respects R (_exit_action state).

Definition response_respects (R : World → World → Prop) r : Prop :=
  state_respects R (next_state r)
  ∧ (∀ a parameters, action r = Some a →
       callable_respects R (Some (a parameters)))
  ∧ (∀ guard, guard_condition r = Some guard →
       ∀ w1 w2, R w1 w2 →
         (guard w1).1 = (guard w2).1 ∧ R (guard w1).2 (guard w2).2).

Definition table_respects (R : World → World → Prop)
    (table : gmap Event (gmap string (State World * Response World Params)))
    : Prop :=
  map_Forall (λ _ (row : gmap string (State World * Response World Params)),
    map_Forall (λ _ (entry : State World * Response World Params),
      response_respects R entry.2) row) table.

(** Two environments hold related worlds and the same record of calls. *)
Definition env_related (R : World → World → Prop)
    (e1 e2 : Env World Params) : Prop :=
  R (world e1) (world e2) ∧ calls e1 = calls e2.

(** Two passes ended the same way, on the same machine, in related
    environments. *)
Definition flow_related (R : World → World → Prop)
    (f1 f2 : Flow World Params) : Prop :=
  match f1, f2 with
  | Raise x1, Raise x2 => x1 = x2
  | Continue self1 e1, Continue self2 e2 =>
      self1 = self2 ∧ env_related R e1 e2
  | Fall self1 e1, Fall self2 e2 => self1 = self2 ∧ env_related R e1 e2
  | _, _ => False
  end.

Definition machine_respects (R : World → World → Prop) self : Prop :=
  callable_respects R (_initial_action self)
  ∧ callable_respects R (_end_action self)
  ∧ state_respects R (_current_state self)
  ∧ table_respects R (_state_table self).

End Notions.

(** ** Concrete machines

    The world is a journal of lines that the callbacks append to; the
    parameters that accompany an event are numbers. *)

Definition note (line : string) : Callable (list string) :=
  λ journal, journal ++ [line].

Definition state_A : State (list string) :=
  mkState "A" (Some (note "enter A")) (Some (note "leave A")) false.

Definition state_B : State (list string) :=
  mkState "B" (Some (note "enter B")) (Some (note "leave B")) false.

Definition state_C : State (list string) :=
  mkState "C" (Some (note "enter C")) None true.

(** A second object named A, with other callbacks. *)
Definition state_A' : State (list string) :=
  mkState "A" None (Some (note "leave A again")) true.

Definition state_E : State (list string) :=
  mkState "E" (Some (note "enter E")) (Some (note "leave E")) true.

Definition go_action : nat → list string → list string :=
  λ parameters, note (if Nat.even parameters then "even" else "odd").

Definition refuse : list string → bool * list string :=
  λ journal, (false, journal ++ ["asked"]).

Definition allow : list string → bool * list string :=
  λ journal, (true, journal ++ ["asked"]).

(** The scenario A -go-> B -go-> C with C an end state. *)
Definition go_machine (source : list (Event * nat))
    : StateMachine (list string) nat :=
  let m := StateMachine_init "go" source state_A
             (Some (note "start")) (Some (note "finish")) in
  let m := add_state m state_B in
  let m := add_state m state_C in
  let m := add_table_entry m "go" state_A
             (mkResponse state_B (Some go_action) (Some allow)) in
  add_table_entry m "go" state_B (mkResponse state_C None None).

(** A -go-> B, where B was never passed to [add_state]. *)
Definition dangling_machine (source : list (Event * nat))
    : StateMachine (list string) nat :=
  add_table_entry
    (StateMachine_init "dangling" source state_A None (Some (note "finish")))
    "go" state_A (mkResponse state_B None None).

(** A -go-> B behind a guard that answers false. *)
Definition guarded_machine (source : list (Event * nat))
    : StateMachine (list string) nat :=
  add_table_entry
    (add_state
       (StateMachine_init "guarded" source state_A None
          (Some (note "finish")))
       state_B)
    "go" state_A (mkResponse state_B (Some go_action) (Some refuse)).

(** A machine that starts in an end state and has a row for "go" that
    holds nothing for that state. *)
Definition idle_machine (source : list (Event * nat))
    : StateMachine (list string) nat :=
  add_event
    (StateMachine_init "idle" source state_E None (Some (note "finish")))
    "go".

(** A machine that starts in the end state E, with a response for "go"
    behind a guard that answers false and a row for "stop" that holds
    nothing. *)
Definition refusing_machine (source : list (Event * nat))
    : StateMachine (list string) nat :=
  add_event
    (add_table_entry
       (StateMachine_init "refusing" source state_E None None)
       "go" state_E (mkResponse state_B None (Some refuse)))
    "stop".

Definition journal0 : Env (list string) nat := mkEnv [] [].

Definition three_go : list (Event * nat) := [("go", 1); ("go", 2); ("go", 3)].

Definition two_go : list (Event * nat) := [("go", 1); ("go", 2)].

(** Two journals that the callbacks above cannot tell apart. *)
Definition same_length (journal1 journal2 : list string) : Prop :=
  length journal1 = length journal2.

(** ** Properties of one pass through the loop *)

Section Dispatch.

Context {World Params : Type}.

Implicit Types (self : StateMachine World Params) (e : Env World Params).
Implicit Types (state next : State World) (r : Response World Params).
Implicit Types (row : gmap string (State World * Response World Params)).
Implicit Types (rest : list (Event * Params)).

Lemma body_no_row self e event (parameters : Params) :
  _state_table self !! event = None →
  body self e (event, parameters) = Raise AttributeError.
Proof. intros Hrow. unfold body. by rewrite Hrow. Qed.

Lemma loop_no_row self e event (parameters : Params) rest :
  _state_table self !! event = None →
  loop self e ((event, parameters) :: rest)
  = mkOutcome (Raised AttributeError) self e rest.
Proof. intros Hrow. cbn [loop]. by rewrite body_no_row. Qed.

Lemma body_no_entry self e event (parameters : Params) row :
  _state_table self !! event = Some row →
  row_get row (_current_state self) = None →
  body self e (event, parameters) = Fall self e.
Proof. intros Hrow Hget. unfold body. by rewrite Hrow, Hget. Qed.

Lemma perform_eq self e next (act : option (Params → World → World))
    (parameters : Params) :
  perform self e next act parameters
  = (with_current_state self next,
     mkEnv
       (opt_apply (_entry_action next)
          (opt_apply ((λ a, a parameters) <$> act)
             (opt_apply (_exit_action (_current_state self)) (world e))))
       (calls e
        ++ opt_call (_exit_action (_current_state self))
             (ExitAction (name (_current_state self)))
        ++ opt_call act (Action (name next) parameters)
        ++ opt_call (_entry_action next) (EntryAction (name next)))).
Proof.
  unfold perform, do_exit, do_entry, invoke. cbn [_current_state with_current_state].
  destruct e as [w l].
  destruct (_exit_action (_current_state self)), act, (_entry_action next);
    cbn; rewrite ?app_nil_r, <- ?app_assoc; reflexivity.
Qed.

Lemma body_guard_false self e event (parameters : Params) row r guard w :
  _state_table self !! event = Some row →
  row_get row (_current_state self) = Some r →
  guard_condition r = Some guard →
  guard (world e) = (false, w) →
  body self e (event, parameters)
  = Continue self (mkEnv w (calls e ++ [GuardCondition event])).
Proof.
  intros Hrow Hget Hguard Hno. unfold body.
  by rewrite Hrow, Hget, Hguard, Hno.
Qed.

Lemma body_performed self e e1 event (parameters : Params) row r :
  _state_table self !! event = Some row →
  row_get row (_current_state self) = Some r →
  guard_passes r event e e1 →
  body self e (event, parameters)
  = Fall (perform self e1 (next_state r) (action r) parameters).1
         (perform self e1 (next_state r) (action r) parameters).2.
Proof.
  intros Hrow Hget Hpass. unfold body, guard_passes in *.
  rewrite Hrow, Hget. destruct (guard_condition r) as [guard|].
  - destruct Hpass as [Hyes ->]. destruct (guard (world e)) as [verdict w].
    cbn in Hyes. subst verdict. cbn [fst snd].
    by destruct (perform _ _ _ _ _).
  - subst e1. by destruct (perform _ _ _ _ _).
Qed.

Lemma body_transition self e e1 event (parameters : Params) row r :
  _state_table self !! event = Some row →
  row_get row (_current_state self) = Some r →
  guard_passes r event e e1 →
  body self e (event, parameters)
  = Fall (with_current_state self (next_state r))
      (perform self e1 (next_state r) (action r) parameters).2.
Proof.
  intros Hrow Hget Hpass.
  rewrite (body_performed self e e1 event parameters row r Hrow Hget Hpass).
  by rewrite perform_eq.
Qed.

(** C2.  A performed transition (a response is found and its guard is
    absent or answers true) runs, in this order: the exit action of the old
    current state, the change of [_current_state] to [next_state], the
    action of the response with the parameters of the event (it is called
    while [_current_state] already is the new state), the entry action of
    the new current state.  Both the world and the record of calls show
    exit before action before entry, and nothing else. *)
Theorem transition_order self e e1 event (parameters : Params) row r :
  _state_table self !! event = Some row →
  row_get row (_current_state self) = Some r →
  guard_passes r event e e1 →
  body self e (event, parameters)
  = Fall (with_current_state self (next_state r))
      (mkEnv
         (opt_apply (_entry_action (next_state r))
            (opt_apply ((λ a, a parameters) <$> action r)
               (opt_apply (_exit_action (_current_state self)) (world e1))))
         (calls e1
          ++ opt_call (_exit_action (_current_state self))
               (ExitAction (name (_current_state self)))
          ++ opt_call (action r) (Action (name (next_state r)) parameters)
          ++ opt_call (_entry_action (next_state r))
               (EntryAction (name (next_state r))))).
Proof.
  intros Hrow Hget Hpass.
  rewrite (body_performed self e e1 event parameters row r Hrow Hget Hpass).
  by rewrite perform_eq.
Qed.

(** C3 (amended).  When a response is found and its guard answers false,
    the pass ends at [continue]: the machine (and so [_current_state]) is
    unchanged, the only call made is the one of the guard, the test of
    [is_end_state] is not reached, and the loop goes on with the next
    event from the unchanged machine.  This is not how a pass without a
    match behaves: an event whose row holds nothing for the current state
    makes no call either, but it reaches the test of [is_end_state] and
    ends the loop when the current state is an end state; the two agree
    only outside end states. *)
Theorem guard_false_suppresses self e event (parameters : Params) rest row r
    guard w :
  _state_table self !! event = Some row →
  row_get row (_current_state self) = Some r →
  guard_condition r = Some guard →
  guard (world e) = (false, w) →
  body self e (event, parameters)
  = Continue self (mkEnv w (calls e ++ [GuardCondition event]))
  ∧ loop self e ((event, parameters) :: rest)
    = loop self (mkEnv w (calls e ++ [GuardCondition event])) rest
  ∧ (∀ (event' : Event) (parameters' : Params) row',
       _state_table self !! event' = Some row' →
       row_get row' (_current_state self) = None →
       loop self e ((event', parameters') :: rest)
       = if is_end_state (_current_state self)
         then mkOutcome Break self e rest
         else loop self e rest).
Proof.
  intros Hrow Hget Hguard Hno.
  pose proof (body_guard_false self e event parameters row r guard w
                Hrow Hget Hguard Hno) as Hbody.
  split; [exact Hbody|]. split.
  - cbn [loop]. by rewrite Hbody.
  - intros event' parameters' row' Hrow' Hget'. cbn [loop].
    by rewrite (body_no_entry self e event' parameters' row' Hrow' Hget').
Qed.

(** C4 (amended).  The test of [is_end_state] is reached after a performed
    transition and also after a pass in which the event has a row that
    holds nothing for the current state: such a pass leaves machine and
    environment as they were and ends the loop exactly when the unchanged
    current state is an end state.  Only a pass suppressed by a false
    guard skips the test. *)
Theorem end_check_reached self e event (parameters : Params) rest row :
  _state_table self !! event = Some row →
  (row_get row (_current_state self) = None →
     body self e (event, parameters) = Fall self e
     ∧ loop self e ((event, parameters) :: rest)
       = if is_end_state (_current_state self)
         then mkOutcome Break self e rest
         else loop self e rest)
  ∧ (∀ r guard w,
       row_get row (_current_state self) = Some r →
       guard_condition r = Some guard →
       guard (world e) = (false, w) →
       loop self e ((event, parameters) :: rest)
       = loop self (mkEnv w (calls e ++ [GuardCondition event])) rest)
  ∧ (∀ r e1,
       row_get row (_current_state self) = Some r →
       guard_passes r event e e1 →
       ∃ e2,
         body self e (event, parameters)
         = Fall (with_current_state self (next_state r)) e2
         ∧ loop self e ((event, parameters) :: rest)
           = if is_end_state (next_state r)
             then mkOutcome Break (with_current_state self (next_state r))
                    e2 rest
             else loop (with_current_state self (next_state r)) e2 rest).
Proof.
  intros Hrow. split; [|split].
  - intros Hget.
    pose proof (body_no_entry self e event parameters row Hrow Hget) as Hbody.
    split; [exact Hbody|]. cbn [loop]. by rewrite Hbody.
  - intros r guard w Hget Hguard Hno. cbn [loop].
    by rewrite (body_guard_false self e event parameters row r guard w).
  - intros r e1 Hget Hpass.
    pose proof (body_transition self e e1 event parameters row r
                  Hrow Hget Hpass) as Hbody.
    eexists. split; [exact Hbody|]. cbn [loop]. by rewrite Hbody.
Qed.

End Dispatch.

(** ** Properties of the registration methods *)

Section Registration.

Context {World Params : Type}.

Implicit Types (self : StateMachine World Params).
Implicit Types (state : State World) (r : Response World Params).
Implicit Types (states : gmap string (State World)).
Implicit Types (row : gmap string (State World * Response World Params)).

(** Membership and lookup go by [State.__eq__]: two objects of the same
    name are the same key. *)
Lemma State_eq_name (state1 state2 : State World) :
  State_eq state1 state2 = true ↔ name state1 = name state2.
Proof. unfold State_eq. apply bool_decide_eq_true. Qed.

Lemma row_get_State_eq row (state1 state2 : State World) :
  State_eq state1 state2 = true → row_get row state1 = row_get row state2.
Proof. intros Heq%State_eq_name. unfold row_get. by rewrite Heq. Qed.

Lemma state_in_State_eq states (state1 state2 : State World) :
  State_eq state1 state2 = true →
  state_in state1 states ↔ state_in state2 states.
Proof. intros Heq%State_eq_name. unfold state_in. by rewrite Heq. Qed.

Lemma set_add_lookup state states :
  set_add state states !! name state
  = Some (default state (states !! name state)).
Proof.
  unfold set_add. destruct (states !! name state) as [old|] eqn:Hold; cbn.
  - exact Hold.
  - apply lookup_insert_eq.
Qed.

Lemma set_add_lookup_ne state states (n : string) :
  n ≠ name state → set_add state states !! n = states !! n.
Proof.
  intros Hne. unfold set_add. destruct (states !! name state); [done|].
  by rewrite lookup_insert_ne.
Qed.

Lemma set_add_member state states : state_in state (set_add state states).
Proof. unfold state_in. rewrite set_add_lookup. eauto. Qed.

Lemma set_add_keeps state other states :
  state_in other states → state_in other (set_add state states).
Proof.
  unfold state_in. intros Hin.
  destruct (decide (name other = name state)) as [Heq|Hne].
  - rewrite Heq, set_add_lookup. eauto.
  - by rewrite set_add_lookup_ne.
Qed.

Lemma set_add_again state1 state2 states :
  name state1 = name state2 →
  set_add state2 (set_add state1 states) = set_add state1 states.
Proof.
  intros Heq. unfold set_add at 1. rewrite <- Heq.
  by rewrite set_add_lookup.
Qed.

Lemma row_set_get state r row : row_get (row_set state r row) state = Some r.
Proof.
  unfold row_get, row_set.
  destruct (row !! name state) as [[key old]|]; by rewrite lookup_insert_eq.
Qed.

Lemma row_set_get_ne state other r row :
  name other ≠ name state →
  row_get (row_set state r row) other = row_get row other.
Proof.
  intros Hne. unfold row_get, row_set.
  destruct (row !! name state) as [[key old]|]; by rewrite lookup_insert_ne.
Qed.

Lemma add_event_table self event :
  _state_table (add_event self event) !! event
  = Some (default ∅ (_state_table self !! event)).
Proof.
  unfold add_event. destruct (_state_table self !! event) eqn:Hrow; cbn.
  - exact Hrow.
  - apply lookup_insert_eq.
Qed.

Lemma add_event_table_ne self event (event' : Event) :
  event' ≠ event →
  _state_table (add_event self event) !! event' = _state_table self !! event'.
Proof.
  intros Hne. unfold add_event. destruct (_state_table self !! event); [done|].
  cbn. by rewrite lookup_insert_ne.
Qed.

Lemma add_event_states self event :
  _states (add_event self event) = _states self
  ∧ _current_state (add_event self event) = _current_state self.
Proof. unfold add_event. by destruct (_state_table self !! event). Qed.

Lemma add_event_present self event row :
  _state_table self !! event = Some row → add_event self event = self.
Proof. intros Hrow. unfold add_event. by rewrite Hrow. Qed.

(** The subscription [self._state_table[event]] of [add_table_entry]
    always finds the row. *)
Lemma add_table_entry_eq self event state r :
  add_table_entry self event state r
  = with_state_table (add_state (add_event self event) state)
      (<[event := row_set state r (default ∅ (_state_table self !! event))]>
         (_state_table (add_event self event))).
Proof.
  unfold add_table_entry. cbn [add_state with_states _state_table].
  by rewrite add_event_table.
Qed.

Lemma add_table_entry_states self event state r :
  _states (add_table_entry self event state r) = set_add state (_states self)
  ∧ _current_state (add_table_entry self event state r) = _current_state self.
Proof.
  rewrite add_table_entry_eq. cbn.
  by destruct (add_event_states self event) as [-> ->].
Qed.

Lemma add_table_entry_table self event state r :
  _state_table (add_table_entry self event state r)
  = <[event := row_set state r (default ∅ (_state_table self !! event))]>
      (_state_table (add_event self event)).
Proof. by rewrite add_table_entry_eq. Qed.

Lemma add_table_entry_actions self event state r :
  _event_source (add_table_entry self event state r) = _event_source self
  ∧ _initial_action (add_table_entry self event state r)
    = _initial_action self
  ∧ _end_action (add_table_entry self event state r) = _end_action self.
Proof.
  rewrite add_table_entry_eq. cbn. unfold add_event.
  by destruct (_state_table self !! event).
Qed.

(** C7 (amended).  [add_table_entry] makes sure that the event has a row,
    adds the source state to [_states] and nothing else ([next_state] is
    not added: it is only held inside the stored response), and stores the
    response under [(event, state)], in place of a response stored there
    before; every other entry of the table, and every other attribute of
    the machine, stays as it was. *)
Theorem add_table_entry_effect self event state r :
  is_Some (_state_table (add_table_entry self event state r) !! event)
  ∧ _states (add_table_entry self event state r)
    = set_add state (_states self)
  ∧ state_in state (_states (add_table_entry self event state r))
  ∧ lookup_response (add_table_entry self event state r) event state = Some r
  ∧ (∀ (event' : Event) (state' : State World),
       event' ≠ event ∨ name state' ≠ name state →
       lookup_response (add_table_entry self event state r) event' state'
       = lookup_response self event' state')
  ∧ (∀ event' : Event,
       event' ≠ event →
       _state_table (add_table_entry self event state r) !! event'
       = _state_table self !! event')
  ∧ _current_state (add_table_entry self event state r) = _current_state self
  ∧ _event_source (add_table_entry self event state r) = _event_source self
  ∧ _initial_action (add_table_entry self event state r)
    = _initial_action self
  ∧ _end_action (add_table_entry self event state r) = _end_action self.
Proof.
  destruct (add_table_entry_states self event state r) as [Hstates Hcur].
  pose proof (add_table_entry_table self event state r) as Htable.
  repeat split.
  - rewrite Htable, lookup_insert_eq. eauto.
  - exact Hstates.
  - rewrite Hstates. apply set_add_member.
  - unfold lookup_response. rewrite Htable, lookup_insert_eq. cbn.
    apply row_set_get.
  - intros event' state' Hother. unfold lookup_response. rewrite Htable.
    destruct (decide (event' = event)) as [->|Hne].
    + rewrite lookup_insert_eq. cbn.
      destruct Hother as [Hev|Hst]; [done|].
      rewrite row_set_get_ne by done.
      by destruct (_state_table self !! event).
    + by rewrite lookup_insert_ne, add_event_table_ne.
  - intros event' Hne. by rewrite Htable, lookup_insert_ne, add_event_table_ne.
  - exact Hcur.
  - by destruct (add_table_entry_actions self event state r) as (-> & _ & _).
  - by destruct (add_table_entry_actions self event state r) as (_ & -> & _).
  - by destruct (add_table_entry_actions self event state r) as (_ & _ & ->).
Qed.

(** C8.  [add_state] and [add_event] are idempotent: a second [add_state]
    with a state of the same name, or a second [add_event] with the same
    event, gives the machine that the first call gave; and [add_event] on
    an event that already has a row leaves that row, empty or not, as it
    is. *)
Theorem registration_idempotent self (state1 state2 : State World)
    (event : Event) :
  name state1 = name state2 →
  add_state (add_state self state1) state2 = add_state self state1
  ∧ add_event (add_event self event) event = add_event self event
  ∧ (∀ row, _state_table self !! event = Some row →
       add_event self event = self
       ∧ _state_table (add_event self event) !! event = Some row).
Proof.
  intros Heq. split; [|split].
  - unfold add_state, with_states. cbn. by rewrite set_add_again.
  - apply (add_event_present _ _ _ (add_event_table self event)).
  - intros row Hrow. by rewrite (add_event_present self event row Hrow).
Qed.

End Registration.

(** ** Properties of the loop and of [run] *)

Section Run.

Context {World Params : Type}.

Implicit Types (self : StateMachine World Params) (e : Env World Params).
Implicit Types (state next : State World) (r : Response World Params).
Implicit Types (row : gmap string (State World * Response World Params)).
Implicit Types (item : Event * Params) (source rest : list (Event * Params)).

Lemma lookup_response_row self (event : Event) state row :
  _state_table self !! event = Some row →
  lookup_response self event state = row_get row state.
Proof. intros Hrow. unfold lookup_response. by rewrite Hrow. Qed.

Lemma lookup_response_no_row self (event : Event) state :
  _state_table self !! event = None →
  lookup_response self event state = None.
Proof. intros Hrow. unfold lookup_response. by rewrite Hrow. Qed.

(** What a pass that does not raise has done. *)
Lemma body_step self e item self' e' :
  body self e item = Continue self' e' ∨ body self e item = Fall self' e' →
  (body self e item = Fall self e ∧ self' = self ∧ e' = e
   ∧ lookup_response self item.1 (_current_state self) = None)
  ∨ (∃ r guard,
       lookup_response self item.1 (_current_state self) = Some r
       ∧ guard_condition r = Some guard
       ∧ (guard (world e)).1 = false
       ∧ body self e item = Continue self e'
       ∧ self' = self
       ∧ e' = mkEnv (guard (world e)).2 (calls e ++ [GuardCondition item.1]))
  ∨ (∃ r e1,
       lookup_response self item.1 (_current_state self) = Some r
       ∧ guard_passes r item.1 e e1
       ∧ body self e item = Fall self' e'
       ∧ self' = with_current_state self (next_state r)
       ∧ e' = (perform self e1 (next_state r) (action r) item.2).2).
Proof.
  destruct item as [event parameters]. cbn [fst snd].
  destruct (_state_table self !! event) as [row|] eqn:Hrow.
  2:{ rewrite (body_no_row self e event parameters Hrow).
      intros [?|?]; discriminate. }
  rewrite (lookup_response_row self event _ row Hrow).
  destruct (row_get row (_current_state self)) as [r|] eqn:Hget.
  2:{ rewrite (body_no_entry self e event parameters row Hrow Hget).
      intros [?|Hfall]; [discriminate|]. left. by injection Hfall as <- <-. }
  destruct (guard_condition r) as [guard|] eqn:Hguard.
  - destruct (guard (world e)) as [verdict w] eqn:Hverdict.
    destruct verdict.
    + assert (guard_passes r event e
                (mkEnv w (calls e ++ [GuardCondition event]))) as Hpass.
      { unfold guard_passes. by rewrite Hguard, Hverdict. }
      rewrite (body_transition self e _ event parameters row r
                 Hrow Hget Hpass).
      intros [?|Hfall]; [discriminate|]. right. right.
      exists r, (mkEnv w (calls e ++ [GuardCondition event])).
      by injection Hfall as <- <-.
    + rewrite (body_guard_false self e event parameters row r guard w
                 Hrow Hget Hguard Hverdict).
      intros [Hcont|?]; [|discriminate]. right. left.
      exists r, guard. injection Hcont as <- <-. by rewrite Hverdict.
  - assert (guard_passes r event e e) as Hpass.
    { unfold guard_passes. by rewrite Hguard. }
    rewrite (body_transition self e e event parameters row r Hrow Hget Hpass).
    intros [?|Hfall]; [discriminate|]. right. right.
    exists r, e. by injection Hfall as <- <-.
Qed.

(** A property of machine and environment that every pass over an item of
    the source keeps holds when the loop stops. *)
Lemma loop_invariant_on (P : StateMachine World Params → Env World Params → Prop)
    (items : list (Event * Params)) :
  (∀ self e item self' e',
     item ∈ items →
     P self e →
     body self e item = Continue self' e' ∨ body self e item = Fall self' e' →
     P self' e') →
  ∀ source self e,
    (∀ item, item ∈ source → item ∈ items) →
    P self e → P (machine (loop self e source)) (env (loop self e source)).
Proof.
  intros Hstep source.
  induction source as [|item rest IH]; intros self e Hsub HP; cbn [loop].
  - exact HP.
  - assert (item ∈ items) as Hitem by (apply Hsub; left).
    assert (∀ item', item' ∈ rest → item' ∈ items) as Hrest
      by (intros item' Hin; apply Hsub; by right).
    destruct (body self e item) as [x|self1 e1|self1 e1] eqn:Hbody.
    + exact HP.
    + apply IH; [exact Hrest|]. eapply Hstep; eauto.
    + assert (P self1 e1) as HP1 by (eapply Hstep; eauto).
      destruct (is_end_state (_current_state self1));
        [exact HP1|by apply IH].
Qed.

Lemma loop_invariant (P : StateMachine World Params → Env World Params → Prop) :
  (∀ self e item self' e',
     P self e →
     body self e item = Continue self' e' ∨ body self e item = Fall self' e' →
     P self' e') →
  ∀ source self e,
    P self e → P (machine (loop self e source)) (env (loop self e source)).
Proof.
  intros Hstep source self e HP.
  apply (loop_invariant_on P source); [|done|exact HP].
  intros self0 e0 item self' e' _. apply Hstep.
Qed.

(** The loop only ever assigns [_current_state]. *)
Lemma loop_keeps self e source :
  _states (machine (loop self e source)) = _states self
  ∧ _state_table (machine (loop self e source)) = _state_table self
  ∧ _initial_action (machine (loop self e source)) = _initial_action self
  ∧ _end_action (machine (loop self e source)) = _end_action self
  ∧ _event_source (machine (loop self e source)) = _event_source self.
Proof.
  apply (loop_invariant (λ self' _,
    _states self' = _states self
    ∧ _state_table self' = _state_table self
    ∧ _initial_action self' = _initial_action self
    ∧ _end_action self' = _end_action self
    ∧ _event_source self' = _event_source self)); [|done].
  intros self0 e0 item self' e' HP Hbody.
  destruct (body_step self0 e0 item self' e' Hbody)
    as [(_ & -> & _)|[(r & guard & _ & _ & _ & _ & -> & _)
                     |(r & e1 & _ & _ & _ & -> & _)]]; done.
Qed.

(** The loop run on [pre ++ more] is the loop run on [pre] and, when that
    leaves by exhaustion, continued on [more]. *)
Lemma loop_app self e pre more :
  stop (loop self e pre) = Exhausted →
  loop self e (pre ++ more)
  = loop (machine (loop self e pre)) (env (loop self e pre)) more.
Proof.
  revert self e. induction pre as [|item pre IH]; intros self e Hstop.
  - reflexivity.
  - cbn [app loop] in *.
    destruct (body self e item) as [x|self1 e1|self1 e1]; [done|by apply IH|].
    destruct (is_end_state (_current_state self1)); [done|by apply IH].
Qed.

Lemma end_calls_app (l1 l2 : list (Call Params)) :
  end_calls (l1 ++ l2) = end_calls l1 + end_calls l2.
Proof.
  induction l1 as [|c l1 IH]; [done|]. cbn. destruct c; cbn; by rewrite ?IH.
Qed.

Lemma perform_end_calls self e next (act : option (Params → World → World))
    (parameters : Params) :
  end_calls (calls (perform self e next act parameters).2)
  = end_calls (calls e).
Proof.
  rewrite perform_eq. cbn. rewrite !end_calls_app.
  destruct (_exit_action (_current_state self)), act, (_entry_action next);
    cbn; lia.
Qed.

(** The loop never calls the end action. *)
Lemma loop_end_calls self e source :
  end_calls (calls (env (loop self e source))) = end_calls (calls e).
Proof.
  apply (loop_invariant (λ _ e', end_calls (calls e') = end_calls (calls e)));
    [|done].
  intros self0 e0 item self' e' HP Hbody.
  destruct (body_step self0 e0 item self' e' Hbody)
    as [(_ & _ & -> & _)|[(r & guard & _ & _ & _ & _ & _ & ->)
                         |(r & e1 & _ & Hpass & _ & _ & ->)]].
  - exact HP.
  - cbn. rewrite end_calls_app. cbn. lia.
  - rewrite perform_end_calls. unfold guard_passes in Hpass.
    destruct (guard_condition r) as [guard|].
    + destruct Hpass as [_ ->]. cbn. rewrite end_calls_app. cbn. lia.
    + by subst e1.
Qed.

Lemma run_initial_end_calls self (w : World) :
  end_calls (calls (run_initial self w)) = 0.
Proof. unfold run_initial. by destruct (_initial_action self). Qed.

Lemma targets_registered_lookup self (event : Event) state r :
  targets_registered self →
  lookup_response self event state = Some r →
  state_in (next_state r) (_states self).
Proof.
  unfold targets_registered, lookup_response, row_get. intros Hall Hget.
  destruct (_state_table self !! event) as [row|] eqn:Hrow; [|done].
  cbn in Hget.
  destruct (row !! name state) as [[key r']|] eqn:Hentry; [|done].
  cbn in Hget. injection Hget as ->.
  apply (map_Forall_lookup_1 _ _ _ _ (map_Forall_lookup_1 _ _ _ _ Hall Hrow)
           Hentry).
Qed.

Lemma run_outcome self (w : World) :
  stop (run self w)
  = stop (loop self (run_initial self w) (_event_source self))
  ∧ machine (run self w)
    = machine (loop self (run_initial self w) (_event_source self))
  ∧ unconsumed (run self w)
    = unconsumed (loop self (run_initial self w) (_event_source self))
  ∧ env (run self w)
    = match stop (loop self (run_initial self w) (_event_source self)) with
      | Raised _ => env (loop self (run_initial self w) (_event_source self))
      | _ => run_end self
               (env (loop self (run_initial self w) (_event_source self)))
      end.
Proof.
  unfold run, run_end.
  destruct (loop_keeps self (run_initial self w) (_event_source self))
    as (_ & _ & _ & -> & _).
  destruct (stop (loop self (run_initial self w) (_event_source self)))
    eqn:Hstop; cbn; by repeat split.
Qed.

Lemma constructed_member self :
  constructed self → state_in (_current_state self) (_states self).
Proof.
  induction 1 as [name0 source initial ia ea|self state _ IH
                 |self event _ IH|self event state r _ IH].
  - unfold state_in. cbn. rewrite lookup_singleton_eq. eauto.
  - cbn. by apply set_add_keeps.
  - by destruct (add_event_states self event) as [-> ->].
  - destruct (add_table_entry_states self event state r) as [-> ->].
    by apply set_add_keeps.
Qed.

Lemma loop_member self e source :
  targets_registered self →
  state_in (_current_state self) (_states self) →
  state_in (_current_state (machine (loop self e source)))
    (_states (machine (loop self e source))).
Proof.
  intros Htargets Hin.
  cut (_states (machine (loop self e source)) = _states self
       ∧ _state_table (machine (loop self e source)) = _state_table self
       ∧ state_in (_current_state (machine (loop self e source)))
           (_states self)).
  { by intros (-> & _ & ?). }
  apply (loop_invariant (λ self' _,
    _states self' = _states self
    ∧ _state_table self' = _state_table self
    ∧ state_in (_current_state self') (_states self))); [|done].
  intros self0 e0 item self' e' (Hstates & Htable & Hcur) Hbody.
  destruct (body_step self0 e0 item self' e' Hbody)
    as [(_ & -> & _)|[(r & guard & _ & _ & _ & _ & -> & _)
                     |(r & e1 & Hget & _ & _ & -> & _)]]; [done|done|].
  cbn. repeat split; [done|done|].
  apply (targets_registered_lookup self item.1 (_current_state self0)).
  - exact Htargets.
  - unfold lookup_response in *. by rewrite <- Htable.
Qed.

(** C5 (amended).  On every machine produced by the constructor,
    [add_state], [add_event] and [add_table_entry], [_current_state] is a
    member of [_states].  [add_table_entry] does not add [next_state] to
    [_states]; when every response of the table has its [next_state] in
    [_states], membership holds after every pass of the loop of [run] and
    when [run] returns. *)
Theorem current_state_registered self :
  constructed self →
  state_in (_current_state self) (_states self)
  ∧ (targets_registered self →
     (∀ e item self' e',
        body self e item = Continue self' e'
        ∨ body self e item = Fall self' e' →
        state_in (_current_state self') (_states self'))
     ∧ (∀ e source,
          state_in (_current_state (machine (loop self e source)))
            (_states (machine (loop self e source))))
     ∧ (∀ w : World,
          state_in (_current_state (machine (run self w)))
            (_states (machine (run self w))))).
Proof.
  intros Hbuilt. pose proof (constructed_member self Hbuilt) as Hin.
  split; [exact Hin|]. intros Htargets. split; [|split].
  - intros e item self' e' Hbody.
    destruct (body_step self e item self' e' Hbody)
      as [(_ & -> & _)|[(r & guard & _ & _ & _ & _ & -> & _)
                       |(r & e1 & Hget & _ & _ & -> & _)]]; [done|done|].
    cbn. by apply (targets_registered_lookup self item.1 (_current_state self)).
  - intros e source. by apply loop_member.
  - intros w. destruct (run_outcome self w) as (_ & -> & _).
    by apply loop_member.
Qed.

(** C6.  When a performed transition lands on a state whose [is_end_state]
    is true, the loop stops there and the events that follow stay in the
    source, unconsumed.  When the loop has stopped, by an end state or by
    exhaustion of the source, an end action that is set is invoked exactly
    once, after everything else. *)
Theorem run_stops_at_end_state self (w : World) :
  (∀ pre event parameters rest row r e1,
     _event_source self = pre ++ (event, parameters) :: rest →
     stop (loop self (run_initial self w) pre) = Exhausted →
     _state_table self !! event = Some row →
     row_get row
       (_current_state (machine (loop self (run_initial self w) pre)))
     = Some r →
     guard_passes r event (env (loop self (run_initial self w) pre)) e1 →
     is_end_state (next_state r) = true →
     stop (run self w) = Break
     ∧ unconsumed (run self w) = rest
     ∧ _current_state (machine (run self w)) = next_state r)
  ∧ (∀ f,
       stop (run self w) = Exhausted ∨ stop (run self w) = Break →
       _end_action self = Some f →
       end_calls (calls (env (run self w))) = 1
       ∧ env (run self w)
         = invoke f EndAction
             (env (loop self (run_initial self w) (_event_source self)))).
Proof.
  destruct (run_outcome self w) as (Hstop & Hmachine & Hrest & Henv).
  split.
  - intros pre event parameters rest row r e1 Hsource Hpre Hrow Hget Hpass Hend.
    rewrite Hstop, Hmachine, Hrest, Hsource.
    rewrite (loop_app self _ pre _ Hpre). cbn [loop].
    destruct (loop_keeps self (run_initial self w) pre) as (_ & Htable & _).
    rewrite <- Htable in Hrow.
    rewrite (body_transition _ _ e1 event parameters row r Hrow Hget Hpass).
    cbn [_current_state with_current_state]. by rewrite Hend.
  - intros f Hstopped Hset. rewrite Hstop in Hstopped.
    rewrite Henv. unfold run_end. rewrite Hset.
    assert (end_calls (calls (invoke f EndAction
              (env (loop self (run_initial self w) (_event_source self)))))
            = 1) as Hone.
    { cbn. rewrite end_calls_app, loop_end_calls, run_initial_end_calls.
      reflexivity. }
    destruct (stop (loop self (run_initial self w) (_event_source self)));
      [done|done|]. by destruct Hstopped.
Qed.

End Run.

(** ** Determinism *)

Section Determinism.

Context {World Params : Type}.

Variable R : World → World → Prop.

Implicit Types (self : StateMachine World Params) (e : Env World Params).
Implicit Types (state next : State World) (r : Response World Params).
Implicit Types (item : Event * Params) (source : list (Event * Params)).

Lemma opt_apply_respects (f : option (World → World)) (w1 w2 : World) :
  callable_respects R f → R w1 w2 → R (opt_apply f w1) (opt_apply f w2).
Proof.
  intros Hf Hw. destruct f as [g|]; cbn; [by apply (Hf g)|exact Hw].
Qed.

Lemma table_respects_lookup self (event : Event) state r :
  table_respects R (_state_table self) →
  lookup_response self event state = Some r →
  response_respects R r.
Proof.
  unfold table_respects, lookup_response, row_get. intros Hall Hget.
  destruct (_state_table self !! event) as [row|] eqn:Hrow; [|done].
  cbn in Hget.
  destruct (row !! name state) as [[key r']|] eqn:Hentry; [|done].
  cbn in Hget. injection Hget as ->.
  apply (map_Forall_lookup_1 _ _ _ _ (map_Forall_lookup_1 _ _ _ _ Hall Hrow)
           Hentry).
Qed.

Lemma perform_related self e1 e2 r (parameters : Params) :
  state_respects R (_current_state self) →
  response_respects R r →
  env_related R e1 e2 →
  env_related R (perform self e1 (next_state r) (action r) parameters).2
                (perform self e2 (next_state r) (action r) parameters).2.
Proof.
  intros [_ Hexit] ([Hentry _] & Haction & _) [Hworld Hcalls].
  rewrite !perform_eq. split; cbn; [|by rewrite Hcalls].
  apply opt_apply_respects; [exact Hentry|].
  apply opt_apply_respects; [|by apply opt_apply_respects].
  destruct (action r) as [a|] eqn:Ha; cbn; [by apply Haction|].
  by intros g.
Qed.

(** The two passes that a machine makes on the same item from related
    environments end the same way. *)
Lemma body_related self e1 e2 item :
  table_respects R (_state_table self) →
  state_respects R (_current_state self) →
  env_related R e1 e2 →
  flow_related R (body self e1 item) (body self e2 item).
Proof.
  intros Htable Hcur Henv. destruct item as [event parameters].
  destruct (_state_table self !! event) as [row|] eqn:Hrow.
  2:{ by rewrite !(body_no_row self _ event parameters Hrow). }
  destruct (row_get row (_current_state self)) as [r|] eqn:Hget.
  2:{ by rewrite !(body_no_entry self _ event parameters row Hrow Hget). }
  assert (response_respects R r) as Hr.
  { apply (table_respects_lookup self event (_current_state self));
      [done|]. by rewrite (lookup_response_row self event _ row Hrow). }
  destruct (guard_condition r) as [guard|] eqn:Hguard.
  - destruct Hr as (_ & _ & Hg). destruct Henv as [Hworld Hcalls].
    destruct (Hg guard Hguard _ _ Hworld) as [Hsame Hafter].
    destruct (guard (world e1)) as [verdict w1] eqn:Hg1.
    destruct (guard (world e2)) as [verdict2 w2] eqn:Hg2.
    cbn in Hsame, Hafter. subst verdict2.
    assert (env_related R (mkEnv w1 (calls e1 ++ [GuardCondition event]))
              (mkEnv w2 (calls e2 ++ [GuardCondition event]))) as Henv.
    { split; cbn; [done|by rewrite Hcalls]. }
    destruct verdict.
    + rewrite (body_transition self e1
                 (mkEnv w1 (calls e1 ++ [GuardCondition event]))
                 event parameters row r Hrow Hget).
      2:{ unfold guard_passes. by rewrite Hguard, Hg1. }
      rewrite (body_transition self e2
                 (mkEnv w2 (calls e2 ++ [GuardCondition event]))
                 event parameters row r Hrow Hget).
      2:{ unfold guard_passes. by rewrite Hguard, Hg2. }
      split; [done|].
      apply perform_related; [done| |done].
      apply (table_respects_lookup self event (_current_state self));
        [done|]. by rewrite (lookup_response_row self event _ row Hrow).
    + rewrite (body_guard_false self e1 event parameters row r guard w1
                 Hrow Hget Hguard Hg1).
      by rewrite (body_guard_false self e2 event parameters row r guard w2
                    Hrow Hget Hguard Hg2).
  - rewrite (body_transition self e1 e1 event parameters row r Hrow Hget).
    2:{ unfold guard_passes. by rewrite Hguard. }
    rewrite (body_transition self e2 e2 event parameters row r Hrow Hget).
    2:{ unfold guard_passes. by rewrite Hguard. }
    split; [done|]. by apply perform_related.
Qed.

Lemma loop_related source :
  ∀ self e1 e2,
    table_respects R (_state_table self) →
    state_respects R (_current_state self) →
    env_related R e1 e2 →
    stop (loop self e1 source) = stop (loop self e2 source)
    ∧ machine (loop self e1 source) = machine (loop self e2 source)
    ∧ unconsumed (loop self e1 source) = unconsumed (loop self e2 source)
    ∧ env_related R (env (loop self e1 source)) (env (loop self e2 source)).
Proof.
  induction source as [|item rest IH]; intros self e1 e2 Htable Hcur Henv.
  - done.
  - cbn [loop].
    pose proof (body_related self e1 e2 item Htable Hcur Henv) as Hflow.
    destruct (body self e1 item) as [x1|self1 e1'|self1 e1'] eqn:Hbody1;
      destruct (body self e2 item) as [x2|self2 e2'|self2 e2'];
      cbn in Hflow; try done.
    + by subst x2.
    + destruct Hflow as [<- Henv'].
      destruct (body_step self e1 item self1 e1' (or_introl Hbody1))
        as [(_ & -> & _)|[(r & guard & _ & _ & _ & _ & -> & _)
                         |(r & e0 & Hget & _ & _ & -> & _)]];
        try by apply IH.
      apply IH; [done| |done].
      by destruct (table_respects_lookup self _ _ r Htable Hget) as [? _].
    + destruct Hflow as [<- Henv'].
      destruct (is_end_state (_current_state self1)); [done|].
      destruct (body_step self e1 item self1 e1' (or_intror Hbody1))
        as [(_ & -> & _)|[(r & guard & _ & _ & _ & _ & -> & _)
                         |(r & e0 & Hget & _ & _ & -> & _)]];
        try by apply IH.
      apply IH; [done| |done].
      by destruct (table_respects_lookup self _ _ r Htable Hget) as [? _].
Qed.

Lemma machine_respects_init (name0 : string) source state
    (initial_action end_action : option (World → World)) :
  callable_respects R initial_action →
  callable_respects R end_action →
  state_respects R state →
  machine_respects R
    (StateMachine_init name0 source state initial_action end_action).
Proof.
  intros Hinitial Hend Hstate.
  split; [done|]. split; [done|]. split; [done|]. apply map_Forall_empty.
Qed.

Lemma machine_respects_add_state self state :
  machine_respects R self → machine_respects R (add_state self state).
Proof. by intros (? & ? & ? & ?). Qed.

Lemma table_respects_add_event self (event : Event) :
  table_respects R (_state_table self) →
  table_respects R (_state_table (add_event self event)).
Proof.
  intros Htable. unfold add_event.
  destruct (_state_table self !! event); [done|]. cbn.
  apply map_Forall_insert_2; [apply map_Forall_empty|exact Htable].
Qed.

Lemma machine_respects_add_event self (event : Event) :
  machine_respects R self → machine_respects R (add_event self event).
Proof.
  intros (Hinitial & Hend & Hcur & Htable).
  pose proof (table_respects_add_event self event Htable) as Htable'.
  unfold add_event in *. by destruct (_state_table self !! event).
Qed.

Lemma machine_respects_add_table_entry self (event : Event) state r :
  machine_respects R self →
  response_respects R r →
  machine_respects R (add_table_entry self event state r).
Proof.
  intros (Hinitial & Hend & Hcur & Htable) Hr.
  destruct (add_table_entry_actions self event state r) as (_ & Hia & Hea).
  destruct (add_table_entry_states self event state r) as [_ Hcs].
  unfold machine_respects. rewrite Hia, Hea, Hcs, add_table_entry_table.
  split; [done|]. split; [done|]. split; [done|].
  apply map_Forall_insert_2; [|by apply table_respects_add_event].
  assert (map_Forall (λ _ (entry : State World * Response World Params),
            response_respects R entry.2)
            (default ∅ (_state_table self !! event))) as Hrow.
  { destruct (_state_table self !! event) as [row|] eqn:Hlookup; cbn.
    - apply (map_Forall_lookup_1 _ _ _ _ Htable Hlookup).
    - apply map_Forall_empty. }
  unfold row_set.
  destruct (default ∅ (_state_table self !! event) !! name state)
    as [[key old]|]; by apply map_Forall_insert_2.
Qed.

(** C9.  [run] is deterministic.  Two runs of the same machine (same
    table, same states, same event sequence, same initial state) stop for
    the same reason in the same final machine, so in the same
    [_current_state], after the same sequence of callback invocations and
    with the same events left unconsumed, whenever they start in worlds
    that the callbacks of the machine cannot tell apart: worlds related by
    a relation that every action preserves and on which every guard gives
    one verdict.  Equal worlds are the first instance. *)
Theorem run_deterministic self (w1 w2 : World) :
  machine_respects R self →
  R w1 w2 →
  stop (run self w1) = stop (run self w2)
  ∧ machine (run self w1) = machine (run self w2)
  ∧ calls (env (run self w1)) = calls (env (run self w2))
  ∧ unconsumed (run self w1) = unconsumed (run self w2)
  ∧ R (world (env (run self w1))) (world (env (run self w2))).
Proof.
  intros (Hinitial & Hend & Hcur & Htable) Hworld.
  assert (env_related R (run_initial self w1) (run_initial self w2)) as Henv.
  { unfold run_initial. destruct (_initial_action self) as [f|] eqn:Hf.
    - split; cbn; [by apply (Hinitial f)|done].
    - by split. }
  destruct (loop_related (_event_source self) self _ _ Htable Hcur Henv)
    as (Hstop & Hmachine & Hrest & Hafter & Hcalls).
  destruct (run_outcome self w1) as (-> & -> & -> & ->).
  destruct (run_outcome self w2) as (-> & -> & -> & ->).
  rewrite <- Hstop. repeat split; try done.
  - destruct (stop _); unfold run_end; try done;
      destruct (_end_action self); cbn; by rewrite ?Hcalls.
  - destruct (stop _); unfold run_end; try done;
      (destruct (_end_action self) as [f|] eqn:Hf; cbn;
       [by apply (Hend f)|done]).
Qed.

End Determinism.

(** ** The properties on the concrete machines *)

(** C1 (what the code does).  The table of [go_machine] has no row for
    the event "stop".  When the source yields it, [run] does not ignore
    it: [self._state_table.get(event)] is [None] and the call of [get] on
    it raises [AttributeError].  The loop is left at once, the event "go"
    that follows is never processed, and the end action is not invoked. *)
Theorem unknown_event_raises :
  _state_table (go_machine [("stop", 0); ("go", 1)]) !! "stop" = None
  ∧ run (go_machine [("stop", 0); ("go", 1)]) []
    = mkOutcome (Raised AttributeError)
        (go_machine [("stop", 0); ("go", 1)])
        (mkEnv ["start"] [InitialAction])
        [("go", 1)].
Proof.
  split.
  - vm_compute. reflexivity.
  - vm_compute. reflexivity.
Qed.

Lemma transition_order_witness :
  body (go_machine three_go) (mkEnv ["start"] [InitialAction]) ("go", 1)
  = Fall (with_current_state (go_machine three_go) state_B)
      (mkEnv ["start"; "asked"; "leave A"; "odd"; "enter B"]
         [InitialAction; GuardCondition "go"; ExitAction "A"; Action "B" 1;
          EntryAction "B"]).
Proof.
  eapply (transition_order (go_machine three_go) _
            (mkEnv ["start"; "asked"] [InitialAction; GuardCondition "go"])
            "go" 1 _ (mkResponse state_B (Some go_action) (Some allow))).
  - vm_compute. reflexivity.
  - vm_compute. reflexivity.
  - vm_compute. split; reflexivity.
Defined.

Lemma guard_false_suppresses_witness :
  body (guarded_machine two_go) journal0 ("go", 1)
  = Continue (guarded_machine two_go) (mkEnv ["asked"] [GuardCondition "go"])
  ∧ loop (guarded_machine two_go) journal0 [("go", 1); ("go", 2)]
    = loop (guarded_machine two_go) (mkEnv ["asked"] [GuardCondition "go"])
        [("go", 2)].
Proof.
  assert (∃ row, _state_table (guarded_machine two_go) !! "go" = Some row
                 ∧ row_get row (_current_state (guarded_machine two_go))
                   = Some (mkResponse state_B (Some go_action) (Some refuse)))
    as (row & Hrow & Hget).
  { eexists. split; vm_compute; reflexivity. }
  destruct (guard_false_suppresses (guarded_machine two_go) journal0 "go" 1
              [("go", 2)] row
              (mkResponse state_B (Some go_action) (Some refuse)) refuse
              ["asked"] Hrow Hget eq_refl eq_refl) as (Hbody & Hloop & _).
  split; [exact Hbody|exact Hloop].
Defined.

(** C3, as stated, fails: a firing refused by its guard does not behave as
    a firing without a match.  [refusing_machine] is in the end state E;
    the event "go", refused by the guard, lets the loop go on to the next
    event, while the event "stop", for which the row holds nothing, ends
    the loop at once and leaves the next event unconsumed. *)
Lemma guard_false_is_not_no_match :
  lookup_response (refusing_machine []) "go" state_E
  = Some (mkResponse state_B None (Some refuse))
  ∧ _state_table (refusing_machine []) !! "stop" = Some ∅
  ∧ lookup_response (refusing_machine []) "stop" state_E = None
  ∧ loop (refusing_machine []) journal0 [("go", 1); ("go", 2)]
    = mkOutcome Exhausted (refusing_machine [])
        (mkEnv ["asked"; "asked"] [GuardCondition "go"; GuardCondition "go"])
        []
  ∧ loop (refusing_machine []) journal0 [("stop", 1); ("go", 2)]
    = mkOutcome Break (refusing_machine []) journal0 [("go", 2)].
Proof.
  split; [vm_compute; reflexivity|].
  split; [vm_compute; reflexivity|].
  split; [vm_compute; reflexivity|].
  split; vm_compute; reflexivity.
Qed.

(** C4, as stated, fails: [idle_machine] is in the end state E, the event
    "go" has a row that holds nothing for E, and the first "go" ends the
    loop although no transition was performed and no callback ran; the
    second "go" is left unconsumed. *)
Lemma no_match_reaches_end_check :
  _state_table (idle_machine two_go) !! "go" = Some ∅
  ∧ lookup_response (idle_machine two_go) "go"
      (_current_state (idle_machine two_go)) = None
  ∧ body (idle_machine two_go) journal0 ("go", 1)
    = Fall (idle_machine two_go) journal0
  ∧ loop (idle_machine two_go) journal0 [("go", 1); ("go", 2)]
    = mkOutcome Break (idle_machine two_go) journal0 [("go", 2)]
  ∧ unconsumed (loop (idle_machine two_go) journal0 [("go", 2)]) = [].
Proof.
  split; [vm_compute; reflexivity|].
  split; [vm_compute; reflexivity|].
  split; [vm_compute; reflexivity|].
  split; vm_compute; reflexivity.
Qed.

Lemma end_check_reached_witness :
  body (idle_machine two_go) journal0 ("go", 1)
  = Fall (idle_machine two_go) journal0
  ∧ loop (idle_machine two_go) journal0 [("go", 1); ("go", 2)]
    = mkOutcome Break (idle_machine two_go) journal0 [("go", 2)].
Proof.
  assert (_state_table (idle_machine two_go) !! "go" = Some ∅) as Hrow
    by (vm_compute; reflexivity).
  destruct (end_check_reached (idle_machine two_go) journal0 "go" 1
              [("go", 2)] ∅ Hrow) as [Hnone _].
  apply Hnone. vm_compute. reflexivity.
Defined.

(** C5, as stated, fails: [dangling_machine] is built by the constructor
    and [add_table_entry] alone, its response leads to B, and B is not in
    [_states]; after the transition [_current_state] is B. *)
Lemma current_state_left_states :
  constructed (dangling_machine [("go", 1)])
  ∧ _current_state (machine (run (dangling_machine [("go", 1)]) []))
    = state_B
  ∧ _states (machine (run (dangling_machine [("go", 1)]) [])) !! name state_B
    = None.
Proof.
  split; [unfold dangling_machine; repeat constructor|].
  split; vm_compute; reflexivity.
Qed.

Lemma go_machine_targets source : targets_registered (go_machine source).
Proof.
  unfold targets_registered, state_in.
  apply (bool_decide_unpack _). vm_compute. exact I.
Qed.

Lemma go_machine_constructed source : constructed (go_machine source).
Proof. unfold go_machine. repeat constructor. Qed.

Lemma current_state_registered_witness :
  state_in (_current_state (go_machine three_go)) (_states (go_machine three_go))
  ∧ state_in (_current_state (machine (run (go_machine three_go) [])))
      (_states (machine (run (go_machine three_go) []))).
Proof.
  destruct (current_state_registered (go_machine three_go)
              (go_machine_constructed three_go)) as [Hnow Hrun].
  split; [exact Hnow|].
  destruct (Hrun (go_machine_targets three_go)) as (_ & _ & Hafter).
  apply Hafter.
Defined.

Lemma run_stops_at_end_state_witness :
  (stop (run (go_machine three_go) []) = Break
   ∧ unconsumed (run (go_machine three_go) []) = [("go", 3)]
   ∧ _current_state (machine (run (go_machine three_go) [])) = state_C)
  ∧ end_calls (calls (env (run (go_machine three_go) []))) = 1.
Proof.
  destruct (run_stops_at_end_state (go_machine three_go) []) as [Hstop Hend].
  split.
  - eapply (Hstop [("go", 1)] "go" 2 [("go", 3)] _
              (mkResponse state_C None None)).
    + reflexivity.
    + vm_compute. reflexivity.
    + vm_compute. reflexivity.
    + vm_compute. reflexivity.
    + reflexivity.
    + reflexivity.
  - apply (Hend (note "finish")).
    + right. vm_compute. reflexivity.
    + reflexivity.
Defined.

(** C7, as stated, fails: the entry added to [dangling_machine] leads to
    B, and after [add_table_entry] the set [_states] holds A only. *)
Lemma next_state_not_registered :
  lookup_response (dangling_machine []) "go" state_A
  = Some (mkResponse state_B None None)
  ∧ _states (dangling_machine []) !! name state_B = None
  ∧ _states (dangling_machine []) = {[ "A" := state_A ]}.
Proof.
  split; [vm_compute; reflexivity|].
  split; vm_compute; reflexivity.
Qed.

Lemma add_table_entry_effect_witness :
  lookup_response
    (add_table_entry (go_machine []) "go" state_A'
       (mkResponse state_C None None)) "go" state_A'
  = Some (mkResponse state_C None None)
  ∧ lookup_response
      (add_table_entry (go_machine []) "go" state_A'
         (mkResponse state_C None None)) "go" state_B
    = lookup_response (go_machine []) "go" state_B.
Proof.
  destruct (add_table_entry_effect (go_machine []) "go" state_A'
              (mkResponse state_C None None))
    as (_ & _ & _ & Hset & Hother & _).
  split; [exact Hset|].
  apply Hother. right. discriminate.
Defined.

Lemma registration_idempotent_witness :
  add_state (add_state (idle_machine []) state_A) state_A'
  = add_state (idle_machine []) state_A
  ∧ add_event (add_event (idle_machine []) "go") "go"
    = add_event (idle_machine []) "go"
  ∧ (∀ row, _state_table (idle_machine []) !! "go" = Some row →
       add_event (idle_machine []) "go" = idle_machine []
       ∧ _state_table (add_event (idle_machine []) "go") !! "go" = Some row).
Proof.
  apply (registration_idempotent (idle_machine []) state_A state_A' "go").
  reflexivity.
Defined.

Lemma note_same_length line :
  callable_respects same_length (Some (note line)).
Proof.
  intros g [= <-] journal1 journal2. unfold same_length, note.
  rewrite !length_app. cbn. lia.
Qed.

Lemma none_same_length : callable_respects same_length None.
Proof. by intros g. Qed.

Lemma go_machine_respects source :
  machine_respects same_length (go_machine source).
Proof.
  unfold go_machine.
  apply machine_respects_add_table_entry;
    [apply machine_respects_add_table_entry;
       [do 2 apply machine_respects_add_state; apply machine_respects_init|]|].
  - apply note_same_length.
  - apply note_same_length.
  - split; apply note_same_length.
  - split; [split; apply note_same_length|]. split.
    + intros a parameters [= <-] g [= <-] journal1 journal2.
      unfold same_length, go_action, note. rewrite !length_app. cbn. lia.
    + intros guard [= <-] journal1 journal2. unfold same_length, allow. cbn.
      rewrite !length_app. cbn. split; [done|lia].
  - split; [split; [apply note_same_length|apply none_same_length]|].
    split; [intros a parameters [=]|intros guard [=]].
Qed.

Lemma run_deterministic_witness :
  stop (run (go_machine three_go) ["x"])
  = stop (run (go_machine three_go) ["y"])
  ∧ machine (run (go_machine three_go) ["x"])
    = machine (run (go_machine three_go) ["y"])
  ∧ calls (env (run (go_machine three_go) ["x"]))
    = calls (env (run (go_machine three_go) ["y"]))
  ∧ unconsumed (run (go_machine three_go) ["x"])
    = unconsumed (run (go_machine three_go) ["y"])
  ∧ same_length (world (env (run (go_machine three_go) ["x"])))
      (world (env (run (go_machine three_go) ["y"]))).
Proof.
  apply (run_deterministic same_length (go_machine three_go) ["x"] ["y"]).
  - apply go_machine_respects.
  - reflexivity.
Defined.


(** ** Further properties of [run] *)

Section RunFacts.

Context {World Params : Type}.

Implicit Types (self : StateMachine World Params) (e : Env World Params).
Implicit Types (state next : State World) (r : Response World Params).
Implicit Types (row : gmap string (State World * Response World Params)).
Implicit Types (item : Event * Params) (source rest : list (Event * Params)).

(** A pass over an event that has a row does not raise. *)
Lemma body_row_passes self e event (parameters : Params) row :
  _state_table self !! event = Some row →
  ∃ self' e',
    body self e (event, parameters) = Continue self' e'
    ∨ body self e (event, parameters) = Fall self' e'.
Proof.
  intros Hrow.
  destruct (row_get row (_current_state self)) as [r|] eqn:Hget.
  2:{ exists self, e. right. by apply (body_no_entry self e event _ row). }
  destruct (guard_condition r) as [guard|] eqn:Hguard.
  - destruct (guard (world e)) as [[] w] eqn:Hverdict.
    + eexists _, _. right.
      apply (body_transition self e
               (mkEnv w (calls e ++ [GuardCondition event]))
               event parameters row r Hrow Hget).
      unfold guard_passes. by rewrite Hguard, Hverdict.
    + eexists _, _. left.
      by apply (body_guard_false self e event parameters row r guard w).
  - eexists _, _. right.
    apply (body_transition self e e event parameters row r Hrow Hget).
    unfold guard_passes. by rewrite Hguard.
Qed.

(** A pass leaves the table as it is. *)
Lemma body_table self e item self' e' :
  body self e item = Continue self' e' ∨ body self e item = Fall self' e' →
  _state_table self' = _state_table self.
Proof.
  intros Hbody.
  by destruct (body_step self e item self' e' Hbody)
    as [(_ & -> & _)|[(r & guard & _ & _ & _ & _ & -> & _)
                     |(r & e1 & _ & _ & _ & -> & _)]].
Qed.

Lemma loop_registered_events source :
  ∀ self e,
    (∀ item, item ∈ source → is_Some (_state_table self !! item.1)) →
    stop (loop self e source) = Exhausted ∨ stop (loop self e source) = Break.
Proof.
  induction source as [|[event parameters] rest IH]; intros self e Hrows.
  - by left.
  - destruct (Hrows (event, parameters)) as [row Hrow]; [left|].
    assert (∀ self', _state_table self' = _state_table self →
              ∀ item, item ∈ rest → is_Some (_state_table self' !! item.1))
      as Hrest.
    { intros self' -> item Hin. apply Hrows. by right. }
    destruct (body_row_passes self e event parameters row Hrow)
      as (self' & e' & Hbody).
    pose proof (body_table self e _ self' e' Hbody) as Htable.
    cbn [loop]. destruct Hbody as [-> | ->].
    + apply IH. by apply Hrest.
    + destruct (is_end_state (_current_state self')); [by right|].
      apply IH. by apply Hrest.
Qed.

(** X1.  On the inputs of this file (items that are pairs, states that can
    be hashed, callbacks that return), when every event that the source
    yields has a row in the table (it was passed to [add_event] or
    [add_table_entry]), the lookup of line 93 never meets [None] and [run]
    raises no [AttributeError]: it stops by exhaustion of the source or at
    an end state. *)
Theorem run_registered_events_never_raise self (w : World) :
  (∀ item, item ∈ _event_source self →
           is_Some (_state_table self !! item.1)) →
  stop (run self w) = Exhausted ∨ stop (run self w) = Break.
Proof.
  intros Hrows. destruct (run_outcome self w) as (-> & _).
  by apply loop_registered_events.
Qed.

(** X2.  [run] raises [AttributeError] at the first event without a row
    that the loop reaches: the machine and the environment stay as the
    events before it left them, the events after it stay unconsumed, and
    the end action is not invoked. *)
Theorem run_raises_at_first_unknown_event self (w : World) pre event
    (parameters : Params) rest :
  _event_source self = pre ++ (event, parameters) :: rest →
  stop (loop self (run_initial self w) pre) = Exhausted →
  _state_table self !! event = None →
  run self w
  = mkOutcome (Raised AttributeError)
      (machine (loop self (run_initial self w) pre))
      (env (loop self (run_initial self w) pre))
      rest
  ∧ end_calls (calls (env (run self w))) = 0.
Proof.
  intros Hsource Hpre Hrow.
  destruct (loop_keeps self (run_initial self w) pre) as (_ & Htable & _).
  assert (run self w
          = mkOutcome (Raised AttributeError)
              (machine (loop self (run_initial self w) pre))
              (env (loop self (run_initial self w) pre)) rest) as Hrun.
  { unfold run. rewrite Hsource, (loop_app self _ pre _ Hpre).
    rewrite loop_no_row by (by rewrite Htable). reflexivity. }
  split; [exact Hrun|]. rewrite Hrun. cbn [env].
  by rewrite loop_end_calls, run_initial_end_calls.
Qed.

Lemma loop_only_moves_current_state self e source :
  machine (loop self e source)
  = with_current_state self (_current_state (machine (loop self e source))).
Proof.
  apply (loop_invariant (λ self' _,
    self' = with_current_state self (_current_state self'))).
  - intros self0 e0 item self' e' Hsame Hbody.
    destruct (body_step self0 e0 item self' e' Hbody)
      as [(_ & -> & _)|[(r & guard & _ & _ & _ & _ & -> & _)
                       |(r & e1 & _ & _ & _ & -> & _)]]; [done|done|].
    rewrite Hsame. reflexivity.
  - by destruct self.
Qed.

(** X3.  [run] assigns no attribute of the machine but [_current_state]:
    the name, the event source object, the two actions, the set of states
    and the table are after [run] what they were before. *)
Theorem run_only_moves_current_state self (w : World) :
  machine (run self w)
  = with_current_state self (_current_state (machine (run self w))).
Proof.
  destruct (run_outcome self w) as (_ & -> & _).
  apply loop_only_moves_current_state.
Qed.

Lemma loop_calls self e source :
  ∃ l, calls (env (loop self e source)) = calls e ++ l
       ∧ Forall transition_call l.
Proof.
  apply (loop_invariant (λ _ e',
    ∃ l, calls e' = calls e ++ l ∧ Forall transition_call l)).
  - intros self0 e0 item self' e' (l & Hl & Hall) Hbody.
    destruct (body_step self0 e0 item self' e' Hbody)
      as [(_ & _ & -> & _)|[(r & guard & _ & _ & _ & _ & _ & ->)
                           |(r & e1 & _ & Hpass & _ & _ & ->)]].
    + by exists l.
    + exists (l ++ [GuardCondition item.1]). cbn.
      rewrite Hl, <- app_assoc. split; [done|].
      apply Forall_app. split; [done|]. by repeat constructor.
    + assert (∃ l1, calls e1 = calls e ++ l1 ∧ Forall transition_call l1)
        as (l1 & Hl1 & Hall1).
      { unfold guard_passes in Hpass.
        destruct (guard_condition r) as [guard|].
        - destruct Hpass as [_ ->]. exists (l ++ [GuardCondition item.1]).
          cbn. rewrite Hl, <- app_assoc. split; [done|].
          apply Forall_app. split; [done|]. by repeat constructor.
        - subst e1. by exists l. }
      rewrite perform_eq. cbn [snd calls]. rewrite Hl1.
      eexists. rewrite <- app_assoc. split; [reflexivity|].
      apply Forall_app. split; [done|].
      destruct (_exit_action (_current_state self0)), (action r),
        (_entry_action (next_state r)); cbn; by repeat constructor.
  - exists []. by rewrite app_nil_r.
Qed.

(** X4.  An initial action that is set is invoked exactly once, before
    every other call, whatever makes [run] stop (an exception included):
    the record of calls starts with it and holds it nowhere else.  Without
    an initial action the record holds no such call. *)
Theorem initial_action_first_and_once self (w : World) :
  ∃ l, calls (env (run self w))
       = match _initial_action self with
         | Some _ => InitialAction :: l
         | None => l
         end
       ∧ InitialAction ∉ l.
Proof.
  destruct (run_outcome self w) as (_ & _ & _ & Henv).
  destruct (loop_calls self (run_initial self w) (_event_source self))
    as (l & Hl & Hall).
  assert (InitialAction ∉ l) as Hnot.
  { intros Hin. by apply (proj1 (Forall_forall _ _) Hall) in Hin. }
  assert (calls (run_initial self w)
          = match _initial_action self with
            | Some _ => [InitialAction]
            | None => []
            end) as Hstart.
  { unfold run_initial. by destruct (_initial_action self). }
  assert (∃ l', calls (env (run self w)) = calls (run_initial self w) ++ l'
                ∧ InitialAction ∉ l') as (l' & Hl' & Hnot').
  { rewrite Henv.
    destruct (stop (loop self (run_initial self w) (_event_source self)));
      [| |by exists l].
    all: unfold run_end; destruct (_end_action self); [|by exists l].
    all: exists (l ++ [EndAction]); cbn [calls invoke].
    all: rewrite Hl, <- app_assoc; split; [done|].
    all: intros Hin; apply elem_of_app in Hin as [?|Hlast]; [done|].
    all: by apply list_elem_of_singleton in Hlast. }
  exists l'. rewrite Hl', Hstart. by destruct (_initial_action self).
Qed.

Lemma loop_stop_reason source :
  ∀ self e,
    (stop (loop self e source) = Exhausted →
       unconsumed (loop self e source) = [])
    ∧ (stop (loop self e source) = Break →
         is_end_state (_current_state (machine (loop self e source))) = true)
    ∧ (∃ consumed, source = consumed ++ unconsumed (loop self e source)).
Proof.
  induction source as [|item rest IH]; intros self e.
  - cbn. repeat split; [done|]. by exists [].
  - cbn [loop].
    destruct (body self e item) as [x|self1 e1|self1 e1]; cbn.
    + repeat split; [done|done|]. by exists [item].
    + destruct (IH self1 e1) as (Hex & Hbr & consumed & Hsplit).
      repeat split; [done|done|]. exists (item :: consumed).
      by rewrite Hsplit at 1.
    + destruct (is_end_state (_current_state self1)) eqn:Hend; cbn.
      * repeat split; [done|done|]. by exists [item].
      * destruct (IH self1 e1) as (Hex & Hbr & consumed & Hsplit).
        repeat split; [done|done|]. exists (item :: consumed).
        by rewrite Hsplit at 1.
Qed.

(** X5.  What the way [run] stopped tells: after exhaustion no event is
    left unconsumed; after a [break] the current state is an end state;
    and in every case the unconsumed events are a tail of the sequence the
    source yields (events are taken in order, none is skipped or put
    back). *)
Theorem run_stop_reason self (w : World) :
  (stop (run self w) = Exhausted → unconsumed (run self w) = [])
  ∧ (stop (run self w) = Break →
       is_end_state (_current_state (machine (run self w))) = true)
  ∧ (∃ consumed,
       _event_source self = consumed ++ unconsumed (run self w)).
Proof.
  destruct (run_outcome self w) as (-> & -> & -> & _).
  apply loop_stop_reason.
Qed.

(** The states the loop can be in: the one it starts in and the targets of
    the responses stored under the events of the source. *)
Lemma loop_visits self e source :
  _state_table (machine (loop self e source)) = _state_table self
  ∧ (_current_state (machine (loop self e source)) = _current_state self
     ∨ ∃ event parameters state r,
         (event, parameters) ∈ source
         ∧ lookup_response self event state = Some r
         ∧ _current_state (machine (loop self e source)) = next_state r).
Proof.
  apply (loop_invariant_on (λ self' _,
    _state_table self' = _state_table self
    ∧ (_current_state self' = _current_state self
       ∨ ∃ event parameters state r,
           (event, parameters) ∈ source
           ∧ lookup_response self event state = Some r
           ∧ _current_state self' = next_state r)) source); [|done|].
  - intros self0 e0 [event parameters] self' e' Hitem [Htable Hcur] Hbody.
    destruct (body_step self0 e0 _ self' e' Hbody)
      as [(_ & -> & _)|[(r & guard & _ & _ & _ & _ & -> & _)
                       |(r & e1 & Hget & _ & _ & -> & _)]]; [done|done|].
    split; [done|]. right.
    exists event, parameters, (_current_state self0), r.
    repeat split; [done|]. cbn [fst] in Hget.
    unfold lookup_response in *. by rewrite <- Htable.
  - split; [done|by left].
Qed.

(** X6.  When [run] returns or raises, [_current_state] is the state the
    machine started in or the [next_state] of a response stored in the
    table under an event that the source yields: [run] puts the machine
    in no other state. *)
Theorem final_state_is_initial_or_target self (w : World) :
  _current_state (machine (run self w)) = _current_state self
  ∨ ∃ event parameters state r,
      (event, parameters) ∈ _event_source self
      ∧ lookup_response self event state = Some r
      ∧ _current_state (machine (run self w)) = next_state r.
Proof.
  destruct (run_outcome self w) as (_ & -> & _).
  apply loop_visits.
Qed.


Lemma loop_inapplicable source :
  ∀ self e,
    (∀ item, item ∈ source →
       ∃ row, _state_table self !! item.1 = Some row
              ∧ row_get row (_current_state self) = None) →
    is_end_state (_current_state self) = false →
    loop self e source = mkOutcome Exhausted self e [].
Proof.
  induction source as [|[event parameters] rest IH]; intros self e Hnone Hend.
  - reflexivity.
  - destruct (Hnone (event, parameters)) as (row & Hrow & Hget); [left|].
    cbn [loop]. cbn [fst] in Hrow.
    rewrite (body_no_entry self e event parameters row Hrow Hget), Hend.
    apply IH; [|done]. intros item Hin. apply Hnone. by right.
Qed.

(** X8.  Events that do not apply are skipped: when the machine is not in
    an end state and every event of the source has a row that holds
    nothing for the current state, [run] consumes the whole source,
    leaves the machine as it was and invokes nothing but the initial
    action and the end action. *)
Theorem inapplicable_events_are_skipped self (w : World) :
  (∀ item, item ∈ _event_source self →
     ∃ row, _state_table self !! item.1 = Some row
            ∧ row_get row (_current_state self) = None) →
  is_end_state (_current_state self) = false →
  run self w
  = mkOutcome Exhausted self (run_end self (run_initial self w)) [].
Proof.
  intros Hnone Hend. unfold run.
  by rewrite (loop_inapplicable _ self _ Hnone Hend).
Qed.

End RunFacts.

(** ** Entry actions and performed transitions *)

Section EntryCalls.

Context {World Params : Type}.

Implicit Types (self : StateMachine World Params) (e : Env World Params).
Implicit Types (state next : State World) (r : Response World Params).
Implicit Types (item : Event * Params) (source rest : list (Event * Params)).

Lemma entry_calls_app (l1 l2 : list (Call Params)) :
  entry_calls (l1 ++ l2) = entry_calls l1 ++ entry_calls l2.
Proof.
  induction l1 as [|c l1 IH]; [done|]. cbn. destruct c; cbn; by rewrite ?IH.
Qed.

(** A pass that fires a response performs its transition, and only the
    entry action of the target adds an entry call. *)
Lemma fired_performs self e item r :
  fired self e item = Some r →
  lookup_response self item.1 (_current_state self) = Some r
  ∧ (∃ e1, guard_passes r item.1 e e1)
  ∧ ∃ e', body self e item = Fall (with_current_state self (next_state r)) e'
          ∧ entry_calls (calls e')
            = entry_calls (calls e)
              ++ match _entry_action (next_state r) with
                 | Some _ => [name (next_state r)]
                 | None => []
                 end.
Proof.
  destruct item as [event parameters]. unfold fired. cbn [fst].
  destruct (_state_table self !! event) as [row|] eqn:Hrow; [|done].
  destruct (row_get row (_current_state self)) as [r'|] eqn:Hget; [|done].
  intros Hfired.
  assert (r' = r ∧ ∃ e1, guard_passes r' event e e1
                         ∧ entry_calls (calls e1) = entry_calls (calls e))
    as (-> & e1 & Hpass & Hcalls).
  { unfold guard_passes. destruct (guard_condition r') as [guard|].
    - destruct ((guard (world e)).1) eqn:Hverdict; [|done].
      injection Hfired as ->. split; [done|]. eexists. split; [done|].
      cbn. rewrite entry_calls_app. cbn. by rewrite app_nil_r.
    - injection Hfired as ->. split; [done|]. by exists e. }
  split; [by rewrite (lookup_response_row self event _ row Hrow)|].
  split; [by exists e1|].
  eexists. split.
  - apply (body_transition self e e1 event parameters row r Hrow Hget Hpass).
  - rewrite perform_eq. cbn [snd calls]. rewrite !entry_calls_app, Hcalls.
    destruct (_exit_action (_current_state self)), (action r),
      (_entry_action (next_state r)); reflexivity.
Qed.

(** A pass that fires nothing leaves the machine alone and makes no entry
    call. *)
Lemma not_fired_inert self e item self' e' :
  fired self e item = None →
  body self e item = Continue self' e' ∨ body self e item = Fall self' e' →
  self' = self ∧ entry_calls (calls e') = entry_calls (calls e).
Proof.
  intros Hfired Hbody.
  destruct (body_step self e item self' e' Hbody)
    as [(_ & -> & -> & _)|[(r & guard & _ & _ & _ & _ & -> & ->)
                          |(r & e1 & Hget & Hpass & _)]].
  - done.
  - split; [done|]. cbn. rewrite entry_calls_app. cbn. by rewrite app_nil_r.
  - exfalso. revert Hfired. unfold fired, lookup_response in *.
    destruct (_state_table self !! item.1) as [row|]; [|done].
    cbn in Hget. rewrite Hget. unfold guard_passes in Hpass.
    destruct (guard_condition r) as [guard|]; [|done].
    destruct Hpass as [-> _]. done.
Qed.

Lemma loop_entry_calls source :
  ∀ self e,
    entry_calls (calls (env (loop self e source)))
    = entry_calls (calls e) ++ entered (performed self e source).
Proof.
  induction source as [|item rest IH]; intros self e.
  - cbn. by rewrite app_nil_r.
  - cbn [loop performed].
    destruct (fired self e item) as [r|] eqn:Hfired.
    + destruct (fired_performs self e item r Hfired)
        as (_ & _ & e' & -> & Hcalls).
      cbn [_current_state with_current_state].
      destruct (is_end_state (next_state r)).
      * cbn [env]. rewrite Hcalls. unfold entered. cbn.
        by destruct (_entry_action (next_state r)).
      * rewrite IH, Hcalls, <- app_assoc. f_equal. unfold entered. cbn.
        by destruct (_entry_action (next_state r)).
    + destruct (body self e item) as [x|self1 e1|self1 e1] eqn:Hbody.
      * cbn. by rewrite app_nil_r.
      * destruct (not_fired_inert self e item self1 e1 Hfired
                    (or_introl Hbody)) as [-> Hcalls].
        by rewrite IH, Hcalls.
      * destruct (not_fired_inert self e item self1 e1 Hfired
                    (or_intror Hbody)) as [-> Hcalls].
        cbn [app]. destruct (is_end_state (_current_state self)).
        -- cbn. by rewrite Hcalls, app_nil_r.
        -- by rewrite IH, Hcalls.
Qed.

(** Every transition that the loop performs was triggered by an event
    that the loop consumed, follows the response stored for that event
    and the state that was current, and passed the guard. *)
Lemma loop_performed_sound source :
  ∀ self e,
    Forall (λ t,
      lookup_response self (t_item t).1 (t_source t) = Some (t_response t)
      ∧ (∃ e1, guard_passes (t_response t) (t_item t).1 (t_before t) e1)
      ∧ ∃ before after,
          source
          = before ++ t_item t :: after ++ unconsumed (loop self e source))
      (performed self e source).
Proof.
  induction source as [|item rest IH]; intros self e; [by constructor|].
  cbn [loop performed].
  assert (∀ self1 e1,
            _state_table self1 = _state_table self →
            Forall (λ t,
              lookup_response self (t_item t).1 (t_source t)
              = Some (t_response t)
              ∧ (∃ e1, guard_passes (t_response t) (t_item t).1
                         (t_before t) e1)
              ∧ ∃ before after,
                  item :: rest
                  = before ++ t_item t :: after
                    ++ unconsumed (loop self1 e1 rest))
              (performed self1 e1 rest)) as Htail.
  { intros self1 e1 Htable.
    eapply Forall_impl; [apply (IH self1 e1)|].
    intros t (Hget & Hpass & before & after & Hsplit).
    split; [|split; [done|]].
    - unfold lookup_response in *. by rewrite <- Htable.
    - exists (item :: before), after. by rewrite Hsplit at 1. }
  destruct (body self e item) as [x|self1 e1|self1 e1] eqn:Hbody.
  - by constructor.
  - apply Htail. by apply (body_table self e item self1 e1); left.
  - pose proof (body_table self e item self1 e1 (or_intror Hbody)) as Htable.
    apply Forall_app. split.
    + destruct (fired self e item) as [r|] eqn:Hfired; [|by constructor].
      destruct (fired_performs self e item r Hfired) as (Hget & Hpass & _).
      constructor; [|by constructor]. cbn.
      split; [done|]. split; [done|]. exists [].
      destruct (is_end_state (_current_state self1)).
      * by exists [].
      * destruct (loop_stop_reason rest self1 e1) as (_ & _ & used & Hused).
        exists used. cbn. by rewrite <- Hused.
    + destruct (is_end_state (_current_state self1)); [by constructor|].
      by apply Htail.
Qed.

(** C10.  The entry actions that [run] invokes are exactly those of the
    targets of the transitions it performs, one call for each performed
    transition whose target has an entry action, in the order of the
    transitions.  Each of these transitions was triggered by an event
    that [run] consumed, follows the response stored for that event and
    the state current at that moment, and passed the guard.  So [run]
    never invokes the entry action of the state the machine starts in,
    unless a performed transition leads to it; a refused or unmatched
    event invokes no entry action. *)
Theorem entry_only_after_transition self (w : World) :
  entry_calls (calls (env (run self w)))
  = entered (performed self (run_initial self w) (_event_source self))
  ∧ Forall (λ t,
      lookup_response self (t_item t).1 (t_source t) = Some (t_response t)
      ∧ (∃ e1, guard_passes (t_response t) (t_item t).1 (t_before t) e1)
      ∧ ∃ before after,
          _event_source self
          = before ++ t_item t :: after ++ unconsumed (run self w))
      (performed self (run_initial self w) (_event_source self)).
Proof.
  destruct (run_outcome self w) as (_ & _ & Hrest & Henv).
  split.
  - assert (entry_calls (calls (env (run self w)))
            = entry_calls (calls (env (loop self (run_initial self w)
                                         (_event_source self))))) as ->.
    { rewrite Henv. unfold run_end, invoke.
      destruct (stop _), (_end_action self); cbn; try done;
        rewrite entry_calls_app; cbn; by rewrite app_nil_r. }
    rewrite loop_entry_calls. unfold run_initial.
    by destruct (_initial_action self).
  - rewrite Hrest. apply loop_performed_sound.
Qed.

End EntryCalls.

(** ** Further properties of the registration methods *)

Section RegistrationFacts.

Context {World Params : Type}.

Implicit Types (self : StateMachine World Params).
Implicit Types (state known : State World) (r : Response World Params).
Implicit Types (states : gmap string (State World)).
Implicit Types (row : gmap string (State World * Response World Params)).

(** Two machines with the same attributes are the same machine. *)
Lemma StateMachine_eq self1 self2 :
  machine_name self1 = machine_name self2 →
  _event_source self1 = _event_source self2 →
  _current_state self1 = _current_state self2 →
  _initial_action self1 = _initial_action self2 →
  _end_action self1 = _end_action self2 →
  _states self1 = _states self2 →
  _state_table self1 = _state_table self2 →
  self1 = self2.
Proof. destruct self1, self2. cbn. by intros -> -> -> -> -> -> ->. Qed.

Lemma add_table_entry_name self (event : Event) state r :
  machine_name (add_table_entry self event state r) = machine_name self.
Proof.
  rewrite add_table_entry_eq. cbn. unfold add_event.
  by destruct (_state_table self !! event).
Qed.

(** The table after [add_table_entry], in terms of the table before. *)
Lemma add_table_entry_insert self (event : Event) state r :
  _state_table (add_table_entry self event state r)
  = <[event := row_set state r (default ∅ (_state_table self !! event))]>
      (_state_table self).
Proof.
  rewrite add_table_entry_table. unfold add_event.
  destruct (_state_table self !! event); [done|]. cbn.
  by rewrite insert_insert_eq.
Qed.

Lemma row_set_again state1 state2 r1 r2 row :
  name state1 = name state2 →
  row_set state2 r2 (row_set state1 r1 row) = row_set state1 r2 row.
Proof.
  intros Heq. unfold row_set. rewrite <- Heq.
  destruct (row !! name state1) as [[key old]|];
    by rewrite lookup_insert_eq, insert_insert_eq.
Qed.

Lemma row_set_lookup_ne state r row (n : string) :
  n ≠ name state → row_set state r row !! n = row !! n.
Proof.
  intros Hne. unfold row_set.
  destruct (row !! name state) as [[key old]|]; by rewrite lookup_insert_ne.
Qed.

Lemma row_set_commute state1 state2 r1 r2 row :
  name state1 ≠ name state2 →
  row_set state2 r2 (row_set state1 r1 row)
  = row_set state1 r1 (row_set state2 r2 row).
Proof.
  intros Hne. unfold row_set at 1 3.
  rewrite !row_set_lookup_ne by done. unfold row_set.
  destruct (row !! name state1) as [[key1 old1]|],
           (row !! name state2) as [[key2 old2]|];
    by apply insert_insert_ne.
Qed.

Lemma set_add_commute state1 state2 states :
  (name state1 = name state2 → state1 = state2) →
  set_add state2 (set_add state1 states)
  = set_add state1 (set_add state2 states).
Proof.
  intros Hsame. destruct (decide (name state1 = name state2)) as [Heq|Hne].
  { by rewrite (Hsame Heq). }
  unfold set_add at 1 3. rewrite !set_add_lookup_ne by done.
  unfold set_add.
  destruct (states !! name state1), (states !! name state2); try done.
  by apply insert_insert_ne.
Qed.

(** X9.  The last response wins: two calls of [add_table_entry] for the
    same event and for states of the same name leave the machine that the
    single call with the first state object and the second response
    leaves (the key object stored first stays, the response is
    replaced). *)
Theorem add_table_entry_last_wins self (event : Event) state1 state2 r1 r2 :
  name state1 = name state2 →
  add_table_entry (add_table_entry self event state1 r1) event state2 r2
  = add_table_entry self event state1 r2.
Proof.
  intros Heq.
  apply StateMachine_eq.
  - by rewrite !add_table_entry_name.
  - by rewrite !(proj1 (add_table_entry_actions _ _ _ _)).
  - by rewrite !(proj2 (add_table_entry_states _ _ _ _)).
  - by rewrite !(proj1 (proj2 (add_table_entry_actions _ _ _ _))).
  - by rewrite !(proj2 (proj2 (add_table_entry_actions _ _ _ _))).
  - rewrite !(proj1 (add_table_entry_states _ _ _ _)).
    by apply set_add_again.
  - rewrite !add_table_entry_insert. rewrite lookup_insert_eq. cbn.
    by rewrite insert_insert_eq, row_set_again.
Qed.

(** X10.  Registrations commute: two calls of [add_table_entry] for
    different events, or for states of different names, give the same
    machine in either order (when both name the same state, it is the
    same state object). *)
Theorem add_table_entry_commute self (event1 event2 : Event) state1 state2
    r1 r2 :
  event1 ≠ event2 ∨ name state1 ≠ name state2 →
  (name state1 = name state2 → state1 = state2) →
  add_table_entry (add_table_entry self event1 state1 r1) event2 state2 r2
  = add_table_entry (add_table_entry self event2 state2 r2) event1 state1 r1.
Proof.
  intros Hdiff Hsame.
  apply StateMachine_eq.
  - by rewrite !add_table_entry_name.
  - by rewrite !(proj1 (add_table_entry_actions _ _ _ _)).
  - by rewrite !(proj2 (add_table_entry_states _ _ _ _)).
  - by rewrite !(proj1 (proj2 (add_table_entry_actions _ _ _ _))).
  - by rewrite !(proj2 (proj2 (add_table_entry_actions _ _ _ _))).
  - rewrite !(proj1 (add_table_entry_states _ _ _ _)).
    by apply set_add_commute.
  - rewrite !add_table_entry_insert.
    destruct (decide (event1 = event2)) as [<-|Hne].
    + destruct Hdiff as [?|Hnames]; [done|].
      rewrite !lookup_insert_eq. cbn. rewrite !insert_insert_eq.
      by rewrite row_set_commute.
    + rewrite !lookup_insert_ne by done. by apply insert_insert_ne.
Qed.

(** X11.  Registration never removes anything: a state of [_states], a row
    of the table and a response stored for a pair of event and state are
    still there after [add_state], [add_event] and [add_table_entry] (the
    response itself may have been replaced by the last of these). *)
Theorem registration_never_removes self (event event0 : Event) state known r :
  (state_in known (_states self) →
     state_in known (_states (add_state self state))
     ∧ state_in known (_states (add_event self event))
     ∧ state_in known (_states (add_table_entry self event state r)))
  ∧ (is_Some (_state_table self !! event0) →
       is_Some (_state_table (add_state self state) !! event0)
       ∧ is_Some (_state_table (add_event self event) !! event0)
       ∧ is_Some (_state_table (add_table_entry self event state r)
                  !! event0))
  ∧ (is_Some (lookup_response self event0 known) →
       is_Some (lookup_response (add_state self state) event0 known)
       ∧ is_Some (lookup_response (add_event self event) event0 known)
       ∧ is_Some (lookup_response (add_table_entry self event state r)
                    event0 known)).
Proof.
  split; [|split].
  - intros Hin. split; [by apply set_add_keeps|]. split.
    + by rewrite (proj1 (add_event_states self event)).
    + rewrite (proj1 (add_table_entry_states self event state r)).
      by apply set_add_keeps.
  - intros Hrow. split; [done|].
    assert (is_Some (_state_table (add_event self event) !! event0)) as Hev.
    { destruct (decide (event0 = event)) as [->|Hne].
      - rewrite add_event_table. eauto.
      - by rewrite add_event_table_ne. }
    split; [exact Hev|]. rewrite add_table_entry_insert.
    destruct (decide (event0 = event)) as [->|Hne].
    + rewrite lookup_insert_eq. eauto.
    + by rewrite lookup_insert_ne.
  - intros Hget. split; [done|].
    assert (lookup_response (add_event self event) event0 known
            = lookup_response self event0 known) as Hev.
    { unfold lookup_response.
      destruct (decide (event0 = event)) as [->|Hne].
      - rewrite add_event_table.
        destruct (_state_table self !! event) eqn:Hrow; [done|].
        unfold lookup_response in Hget. rewrite Hrow in Hget.
        by destruct Hget.
      - by rewrite add_event_table_ne. }
    split; [by rewrite Hev|].
    unfold lookup_response in *. rewrite add_table_entry_insert.
    destruct (decide (event0 = event)) as [->|Hne].
    + rewrite lookup_insert_eq. cbn.
      destruct (decide (name known = name state)) as [Heq|Hname].
      * unfold row_get. rewrite Heq.
        fold (row_get (row_set state r
                         (default ∅ (_state_table self !! event))) state).
        rewrite row_set_get. eauto.
      * rewrite row_set_get_ne by done.
        by destruct (_state_table self !! event).
    + by rewrite lookup_insert_ne.
Qed.

End RegistrationFacts.

(** ** [__repr__] *)

Section Representation.

Context {World Params : Type}.

Implicit Types (self inner : StateMachine World Params) (e : Env World Params).
Implicit Types (state : State World) (r : Response World Params).
Implicit Types (row : gmap string (State World * Response World Params)).

Lemma append_dot_inj (a b : string) : a +:+ "." = b +:+ "." → a = b.
Proof.
  revert b. induction a as [|c a IH]; intros [|d b] Heq; cbn in Heq.
  - reflexivity.
  - injection Heq as _ Hrest. by destruct b.
  - injection Heq as _ Hrest. by destruct a.
  - injection Heq as -> Hrest. by rewrite (IH b Hrest).
Qed.

(** X12.  [__repr__] agrees with [__eq__] on states: two states have the
    same representation exactly when they are equal, that is when they
    have the same name; the callbacks and the end flag do not show. *)
Theorem State_repr_eq (state1 state2 : State World) :
  State_repr state1 = State_repr state2 ↔ State_eq state1 state2 = true.
Proof.
  rewrite State_eq_name. unfold State_repr. split.
  - intros Heq. apply (inj (String.app _)) in Heq. by apply append_dot_inj.
  - by intros ->.
Qed.

(** X13.  The representation of a machine determines its name, and it is
    never the representation of a state (although a machine compares
    equal to a state of the same name). *)
Theorem StateMachine_repr_eq self1 self2 state :
  (StateMachine_repr self1 = StateMachine_repr self2
   ↔ machine_name self1 = machine_name self2)
  ∧ String.eqb (StateMachine_repr self1) (State_repr state) = false
  ∧ (State_eq (StateMachine_as_State self1) state = true
     ↔ machine_name self1 = name state).
Proof.
  split; [|split].
  - unfold StateMachine_repr. split.
    + intros Heq. apply (inj (String.app _)) in Heq.
      by apply append_dot_inj.
    + by intros ->.
  - reflexivity.
  - apply State_eq_name.
Qed.

End Representation.

(** ** [run] and the set of states *)

Section StatesUnread.

Context {World Params : Type}.

Implicit Types (self : StateMachine World Params) (e : Env World Params).
Implicit Types (states : gmap string (State World)).
Implicit Types (item : Event * Params) (source : list (Event * Params)).

Lemma body_with_states self states e item :
  body (with_states self states) e item
  = match body self e item with
    | Raise x => Raise x
    | Continue self' e' => Continue (with_states self' states) e'
    | Fall self' e' => Fall (with_states self' states) e'
    end.
Proof.
  destruct item as [event parameters]. unfold body.
  cbn [with_states _state_table _current_state].
  destruct (_state_table self !! event) as [row|]; [|done].
  destruct (row_get row (_current_state self)) as [r|]; [|done].
  destruct (guard_condition r) as [guard|].
  - destruct (guard (world e)) as [[] w]; [|done]. reflexivity.
  - reflexivity.
Qed.

Lemma loop_with_states states source :
  ∀ self e,
    loop (with_states self states) e source
    = mkOutcome (stop (loop self e source))
        (with_states (machine (loop self e source)) states)
        (env (loop self e source)) (unconsumed (loop self e source)).
Proof.
  induction source as [|item rest IH]; intros self e; [done|].
  cbn [loop]. rewrite body_with_states.
  destruct (body self e item) as [x|self1 e1|self1 e1]; [done|apply IH|].
  cbn [with_states _current_state].
  destruct (is_end_state (_current_state self1)); [done|apply IH].
Qed.

(** X14.  [run] never reads [_states]: with any other set of states in
    place of [_states] (after further calls of [add_state], say) the run
    stops for the same reason, in the same current state, with the same
    world, the same calls and the same unconsumed events, and leaves that
    set as it found it.  Whether a state was registered makes no
    difference to a run. *)
Theorem run_never_reads_states self states (w : World) :
  run (with_states self states) w
  = mkOutcome (stop (run self w))
      (with_states (machine (run self w)) states)
      (env (run self w)) (unconsumed (run self w)).
Proof.
  unfold run.
  change (run_initial (with_states self states) w) with (run_initial self w).
  change (_event_source (with_states self states)) with (_event_source self).
  rewrite loop_with_states. cbn [stop machine env unconsumed].
  destruct (stop (loop self (run_initial self w) (_event_source self)))
    eqn:Hstop; cbn [stop machine env unconsumed]; rewrite ?Hstop;
    reflexivity.
Qed.

End StatesUnread.

(** ** The further properties on concrete machines *)

(** A machine in state A with rows for "go" and "stop" that hold nothing. *)
Definition waiting_machine (source : list (Event * nat))
    : StateMachine (list string) nat :=
  add_event
    (add_event
       (StateMachine_init "waiting" source state_A
          (Some (note "start")) (Some (note "finish")))
       "go")
    "stop".

Definition go_stop_go : list (Event * nat) :=
  [("go", 1); ("stop", 0); ("go", 2)].

Lemma run_registered_events_never_raise_witness :
  stop (run (go_machine three_go) []) = Exhausted
  ∨ stop (run (go_machine three_go) []) = Break.
Proof.
  apply (run_registered_events_never_raise (go_machine three_go) []).
  intros item Hin.
  assert (item.1 = "go") as ->.
  { change (item ∈ three_go) in Hin. unfold three_go in Hin.
    repeat (apply elem_of_cons in Hin as [->|Hin]; [reflexivity|]).
    by apply elem_of_nil in Hin. }
  eexists. vm_compute. reflexivity.
Defined.

Lemma run_raises_at_first_unknown_event_witness :
  run (go_machine go_stop_go) []
  = mkOutcome (Raised AttributeError)
      (machine (loop (go_machine go_stop_go)
                  (run_initial (go_machine go_stop_go) []) [("go", 1)]))
      (env (loop (go_machine go_stop_go)
              (run_initial (go_machine go_stop_go) []) [("go", 1)]))
      [("go", 2)]
  ∧ end_calls (calls (env (run (go_machine go_stop_go) []))) = 0.
Proof.
  apply (run_raises_at_first_unknown_event (go_machine go_stop_go) []
           [("go", 1)] "stop" 0 [("go", 2)]).
  - reflexivity.
  - vm_compute. reflexivity.
  - vm_compute. reflexivity.
Defined.

Lemma run_stop_reason_witness :
  is_end_state (_current_state (machine (run (go_machine three_go) [])))
  = true.
Proof.
  destruct (run_stop_reason (go_machine three_go) []) as (_ & Hbreak & _).
  apply Hbreak. vm_compute. reflexivity.
Defined.


Lemma inapplicable_events_are_skipped_witness :
  run (waiting_machine [("go", 1); ("stop", 2)]) []
  = mkOutcome Exhausted (waiting_machine [("go", 1); ("stop", 2)])
      (run_end (waiting_machine [("go", 1); ("stop", 2)])
         (run_initial (waiting_machine [("go", 1); ("stop", 2)]) []))
      [].
Proof.
  apply (inapplicable_events_are_skipped
           (waiting_machine [("go", 1); ("stop", 2)]) []).
  - intros item Hin.
    change (item ∈ [("go", 1); ("stop", 2)]) in Hin.
    apply elem_of_cons in Hin as [->|Hin];
      [|apply elem_of_cons in Hin as [->|Hin];
        [|by apply elem_of_nil in Hin]].
    + exists ∅. split; vm_compute; reflexivity.
    + exists ∅. split; vm_compute; reflexivity.
  - reflexivity.
Defined.

Lemma add_table_entry_last_wins_witness :
  add_table_entry
    (add_table_entry (idle_machine []) "go" state_A
       (mkResponse state_B None None))
    "go" state_A' (mkResponse state_C (Some go_action) None)
  = add_table_entry (idle_machine []) "go" state_A
      (mkResponse state_C (Some go_action) None).
Proof.
  apply (add_table_entry_last_wins (idle_machine []) "go" state_A state_A').
  reflexivity.
Defined.

Lemma add_table_entry_commute_witness :
  add_table_entry
    (add_table_entry (idle_machine []) "go" state_A
       (mkResponse state_B None None))
    "go" state_B (mkResponse state_C None None)
  = add_table_entry
      (add_table_entry (idle_machine []) "go" state_B
         (mkResponse state_C None None))
      "go" state_A (mkResponse state_B None None).
Proof.
  apply (add_table_entry_commute (idle_machine []) "go" "go" state_A state_B).
  - right. discriminate.
  - discriminate.
Defined.

Lemma registration_never_removes_witness :
  state_in state_B (_states (add_state (go_machine []) state_E))
  ∧ state_in state_B (_states (add_event (go_machine []) "stop"))
  ∧ state_in state_B
      (_states (add_table_entry (go_machine []) "stop" state_E
                  (mkResponse state_A None None))).
Proof.
  destruct (registration_never_removes (go_machine []) "stop" "go" state_E
              state_B (mkResponse state_A None None)) as (Hstates & _ & _).
  apply Hstates. eexists. vm_compute. reflexivity.
Defined.

Lemma entry_only_after_transition_witness :
  entry_calls (calls (env (run (go_machine three_go) [])))
  = entered (performed (go_machine three_go)
               (run_initial (go_machine three_go) [])
               (_event_source (go_machine three_go))).
Proof.
  destruct (entry_only_after_transition (go_machine three_go) [])
    as [Hcalls _].
  exact Hcalls.
Defined.
